(** * Loan amortization engine of loan_app.py

    Shallow embedding of [calculate_emi] and [generate_schedule]
    (src/loan_app.py, lines 42-85) and proofs of their properties.

    Numbers.  The Python code computes on [int] and [float] values.
    Integers that stay integers in the source ([years], [month],
    [prepay_start_year]) are [Z].  Every other quantity is a rational
    number in lowest terms, [Qc], with exact arithmetic: the embedding
    follows the source's operations one by one, but does not round.
    Equality of amounts is Leibniz equality on [Qc].

    Exceptions.  The only operations of the two functions that can
    raise are [/] with a zero divisor and [**] with a zero base and a
    negative exponent (both ZeroDivisionError).  They are modelled as
    [option]-valued operations, [None] standing for the raised
    exception. *)

From Equations Require Import Equations.
From Stdlib Require Import ZArith QArith Qcanon Qpower List Bool Lia Lqa Psatz.
From Stdlib Require Import Permutation Sorted.
Import ListNotations.

Local Open Scope Qc_scope.

(** ** Python arithmetic on exact rationals *)

Module Py.

(** An integer used as a number. *)
Definition num (z : Z) : Qc := Q2Qc (inject_Z z).

(** [a > b] and [a == 0] on numbers, as booleans. *)
Definition gtb (a b : Qc) : bool := negb (Qle_bool a b).
Definition eq0 (a : Qc) : bool := Qc_eq_bool a 0.

(** [a / b] raises ZeroDivisionError when [b] is zero. *)
Definition div (a b : Qc) : option Qc :=
  if eq0 b then None else Some (a / b).

(** [a ** n] for an integer [n]; raises ZeroDivisionError for a zero
    base and a negative exponent. *)
Definition pow (a : Qc) (n : Z) : option Qc :=
  if eq0 a && (n <? 0)%Z then None else Some (Q2Qc (Qpower a n)).

(** [max(a, b)]: Python returns the first argument unless the second
    is strictly greater. *)
Definition max (a b : Qc) : Qc := if gtb b a then b else a.

Definition bind {A B : Type} (m : option A) (k : A -> option B) : option B :=
  match m with
  | Some a => k a
  | None => None
  end.

End Py.

Notation "x <- m ;; k" := (Py.bind m (fun x => k))
  (at level 61, m at next level, right associativity).

(** ** calculate_emi (lines 42-49) *)

Definition calculate_emi (principal annual_rate : Qc) (years : Z) : option Qc :=
  if Py.eq0 annual_rate then
    Py.div principal (Py.num (years * 12))
  else
    let monthly_rate := annual_rate / Py.num 100 / Py.num 12 in
    let num_payments := (years * 12)%Z in
    p1 <- Py.pow (1 + monthly_rate) num_payments ;;
    let numerator := monthly_rate * p1 in
    p2 <- Py.pow (1 + monthly_rate) num_payments ;;
    let denominator := p2 - 1 in
    q <- Py.div numerator denominator ;;
    Some (principal * q).

(** ** generate_schedule (lines 51-85) *)

(** One row of the returned table: the dictionary appended at lines
    73-79. *)
Record entry : Type := mkEntry {
  Month : Z;
  EMI : Qc;
  Principal : Qc;
  Interest : Qc;
  Balance : Qc
}.

(** The variables the loop updates. *)
Record locals : Type := mkLocals {
  balance : Qc;
  schedule : list entry;
  month : Z
}.

(** The value of a test together with the equation that records it, for
    the termination argument of the loop. *)
Definition inspect {A : Type} (a : A) : {b : A | a = b} := exist _ a eq_refl.

(** How the [while] loop was left: its condition [balance > 1] became
    false, or the [break] of line 83 was executed. *)
Inductive loop_exit : Type := CondFalse | Break.

Section Loop.

(** The variables the loop reads but never assigns. *)
Variables (monthly_rate emi : Qc) (years : Z)
          (yearly_prepay : Qc) (prepay_start_year : Z).

(** Lines 63-65: the condition under which the yearly prepayment is
    added in a given month. *)
Definition prepay_due (month : Z) : bool :=
  let current_year := ((month - 1) / 12 + 1)%Z in
  let is_year_end := (month mod 12 =? 0)%Z in
  is_year_end && (current_year >=? prepay_start_year)%Z
              && Py.gtb yearly_prepay 0.

(** Lines 59-81: one pass through the loop body, up to and including
    [month += 1]. *)
Definition body (s : locals) : locals :=
  let interest := balance s * monthly_rate in
  let principal_paid := emi - interest in
  let principal_paid :=
    if prepay_due (month s) then principal_paid + yearly_prepay
    else principal_paid in
  let principal_paid :=
    if Py.gtb principal_paid (balance s) then balance s
    else principal_paid in
  let balance' := balance s - principal_paid in
  let schedule' :=
    schedule s ++ [ {| Month := month s;
                       EMI := emi;
                       Principal := principal_paid;
                       Interest := interest;
                       Balance := Py.max balance' 0 |} ] in
  {| balance := balance'; schedule := schedule'; month := (month s + 1)%Z |}.

(** Lines 58-83: the loop.  It is left when [balance > 1] fails at
    the top, or by the [break] when the incremented month exceeds
    [years * 12 * 3].  The recursion is well founded because a
    further pass only happens while [month <= years * 12 * 3]. *)
Equations? while_loop (s : locals) : locals * loop_exit
  by wf (Z.to_nat (years * 12 * 3 + 1 - month s)) lt :=
while_loop s with inspect (Py.gtb (balance s) 1) := {
  | exist _ false Hcond => (s, CondFalse)
  | exist _ true Hcond with inspect (month (body s) >? years * 12 * 3)%Z := {
      | exist _ true Hcap => (body s, Break)
      | exist _ false Hcap => while_loop (body s) } }.
Proof.
  simpl in *. lia.
Qed.

End Loop.

(** Lines 54-56: the loop variables before the first pass. *)
Definition init (principal : Qc) : locals :=
  {| balance := principal; schedule := []; month := 1 |}.

(** The function up to its [return], keeping the final values of the
    loop variables and the way the loop was left. *)
Definition run_schedule (principal annual_rate : Qc) (years : Z)
    (yearly_prepay : Qc) (prepay_start_year : Z) : option (locals * loop_exit) :=
  let monthly_rate := annual_rate / Py.num 100 / Py.num 12 in
  emi <- calculate_emi principal annual_rate years ;;
  Some (while_loop monthly_rate emi years yearly_prepay prepay_start_year
          (init principal)).

(** [generate_schedule]: the rows of the returned data frame, or [None]
    when [calculate_emi] raised. *)
Definition generate_schedule (principal annual_rate : Qc) (years : Z)
    (yearly_prepay : Qc) (prepay_start_year : Z) : option (list entry) :=
  r <- run_schedule principal annual_rate years yearly_prepay prepay_start_year ;;
  Some (schedule (fst r)).

(** The sum of a column of the table, as the callers take it
    ([schedule['Interest'].sum()], line 97). *)
Definition total (column : entry -> Qc) (rows : list entry) : Qc :=
  fold_left (fun acc e => acc + column e) rows 0.

(** ** Auxiliary definitions used in the statements *)

(** The monthly rate of line 45 (and line 52). *)
Definition monthly (annual_rate : Qc) : Qc := annual_rate / Py.num 100 / Py.num 12.

(** The compound factor [(1 + monthly_rate) ** num_payments] of lines 47-48. *)
Definition compound (annual_rate : Qc) (years : Z) : Qc :=
  Q2Qc (Qpower (1 + monthly annual_rate)%Qc (years * 12)).

(** The annuity formula returned for a positive rate. *)
Definition annuity (principal annual_rate : Qc) (years : Z) : Qc :=
  principal *
  (monthly annual_rate * compound annual_rate years
   / (compound annual_rate years - 1)).

(** The amount recorded as ['Principal'] by a pass of the loop body
    started with the variables [s] (lines 59-69). *)
Definition paid (monthly_rate emi yearly_prepay : Qc) (prepay_start_year : Z)
    (s : locals) : Qc :=
  let interest := balance s * monthly_rate in
  let principal_paid := emi - interest in
  let principal_paid :=
    if prepay_due yearly_prepay prepay_start_year (month s)
    then principal_paid + yearly_prepay
    else principal_paid in
  if Py.gtb principal_paid (balance s) then balance s else principal_paid.

(** The row appended by that pass (lines 73-79). *)
Definition row (monthly_rate emi yearly_prepay : Qc) (prepay_start_year : Z)
    (s : locals) : entry :=
  let principal_paid := paid monthly_rate emi yearly_prepay prepay_start_year s in
  {| Month := month s;
     EMI := emi;
     Principal := principal_paid;
     Interest := balance s * monthly_rate;
     Balance := Py.max (balance s - principal_paid) 0 |}.

(** The compound factor after [k] months. *)
Definition growth (annual_rate : Qc) (k : Z) : Qc :=
  Q2Qc (Qpower (1 + monthly annual_rate)%Qc k).

(** The balance still outstanding after [k] payments of a loan without
    prepayment, in closed form. *)
Definition outstanding (principal annual_rate : Qc) (years : Z) (k : Z) : Qc :=
  if Py.eq0 annual_rate then
    principal * Py.num (years * 12 - k) / Py.num (years * 12)
  else
    principal
    * (compound annual_rate years - growth annual_rate k)
    / (compound annual_rate years - 1).

(** The rows of a returned table, none if the call raised. *)
Definition rows_of (result : option (list entry)) : list entry :=
  match result with
  | Some rows => rows
  | None => []
  end.

(** The loop variables at the [return], the initial ones if the call
    raised. *)
Definition final_locals (result : option (locals * loop_exit)) : locals :=
  match result with
  | Some (s, _) => s
  | None => init 0
  end.

(** The balance lies between 0 and the principal. *)
Definition in_range (principal : Qc) (s : locals) : Prop :=
  0 <= balance s /\ balance s <= principal.

(** The balance is non-negative and at most [bound] of the number of
    payments made, and at most [n] payments were made. *)
Definition below_bound (bound : Z -> Qc) (n : Z) (s : locals) : Prop :=
  (1 <= month s <= n + 1)%Z /\
  0 <= balance s /\ balance s <= bound (month s - 1)%Z.

(** The balance is exactly [bound] of the number of payments made, each
    row shows [bound] of its month, and no payment was capped. *)
Definition on_bound (bound : Z -> Qc) (n : Z) (s : locals) : Prop :=
  (1 <= month s <= n + 1)%Z /\
  balance s = bound (month s - 1)%Z /\
  month s = (1 + Z.of_nat (length (schedule s)))%Z /\
  forall i e, nth_error (schedule s) i = Some e ->
    Balance e = bound (Z.of_nat (S i)) /\
    Principal e + Interest e = EMI e.

(** Row by row, the balances of the first table are at most those of
    the second. *)
Definition below_curve (rows1 rows0 : list entry) : Prop :=
  forall i a b, nth_error rows1 i = Some a -> nth_error rows0 i = Some b ->
                Balance a <= Balance b.

(** The last row of a table, if any. *)
Definition last_row (rows : list entry) : option entry :=
  nth_error rows (pred (length rows)).

(** The yearly prepayment that falls due in a month, zero if none. *)
Definition prepaid (yearly_prepay : Qc) (prepay_start_year : Z) (month : Z) : Qc :=
  if prepay_due yearly_prepay prepay_start_year month then yearly_prepay else 0.

(** ** The dashboard: figures computed from the schedules (lines 90-355) *)

(** The operations of the data frame returned by [generate_schedule]
    that the tabs use. *)
Module Df.

(** [df[name]]: the frame built from an empty list of rows has no
    columns, and the access raises KeyError ([None]). *)
Definition column {A : Type} (name : entry -> A) (df : list entry)
    : option (list A) :=
  match df with
  | [] => None
  | _ :: _ => Some (map name df)
  end.

(** [series.sum()]. *)
Definition sum (values : list Qc) : Qc := fold_left Qcplus values 0.

(** [len(df)]: the number of rows. *)
Definition len (df : list entry) : Z := Z.of_nat (length df).

End Df.

(** Tab 1, lines 95-98: the figures of one loan in the comparison
    table, before they are formatted. *)
Record comparison : Type := mkComparison {
  monthly_emi : Qc;
  total_interest : Qc;
  total_amount : Qc
}.

Definition comparison_figures (principal interest_rate : Qc) (years : Z)
    : option comparison :=
  emi <- calculate_emi principal interest_rate years ;;
  schedule <- generate_schedule principal interest_rate years 0 1 ;;
  interest <- Df.column Interest schedule ;;
  let total_interest := Df.sum interest in
  let total_amount := emi * Py.num (Df.len schedule) in
  Some {| monthly_emi := emi;
          total_interest := total_interest;
          total_amount := total_amount |}.

(** Tab 2, lines 130-142: the figures of one loan, computed when
    [prepayment_amount > 0]; [years_saved] and [months_saved] are the
    two numbers of the "Time Saved" metric. *)
Record benefit : Type := mkBenefit {
  interest_saved : Qc;
  time_saved : Z;
  years_saved : Z;
  months_saved : Z;
  net_benefit : Qc
}.

Definition prepayment_benefit (principal interest_rate : Qc) (years : Z)
    (prepayment_amount : Qc) (prepayment_start_year : Z) : option benefit :=
  schedule_without <- generate_schedule principal interest_rate years 0 1 ;;
  schedule_with <- generate_schedule principal interest_rate years
                     prepayment_amount prepayment_start_year ;;
  interest_without <- Df.column Interest schedule_without ;;
  interest_with <- Df.column Interest schedule_with ;;
  let interest_saved := Df.sum interest_without - Df.sum interest_with in
  let time_saved := (Df.len schedule_without - Df.len schedule_with)%Z in
  Some {| interest_saved := interest_saved;
          time_saved := time_saved;
          years_saved := (time_saved / 12)%Z;
          months_saved := (time_saved mod 12)%Z;
          net_benefit :=
            interest_saved
            - prepayment_amount * Py.num (Df.len schedule_with / 12) |}.

(** Tab 4, lines 348-355: the year-wise summary.  The rows are grouped
    by [(Month - 1) // 12]; the groups come in increasing order of that
    key; each gives the sums of its principal and interest parts and
    the balance of its last row. *)
Record year_row : Type := mkYearRow {
  Year : Z;
  TotalPaid : Qc;
  YearPrincipal : Qc;
  YearInterest : Qc;
  YearBalance : Qc
}.

Fixpoint insert_key (k : Z) (keys : list Z) : list Z :=
  match keys with
  | [] => [k]
  | k' :: rest => if (k <=? k')%Z then k :: keys else k' :: insert_key k rest
  end.

(** The group keys in increasing order. *)
Definition sort_keys (keys : list Z) : list Z := fold_right insert_key [] keys.

Definition year_key (e : entry) : Z := ((Month e - 1) / 12)%Z.

Definition year_group (schedule : list entry) (k : Z) : list entry :=
  filter (fun e => (year_key e =? k)%Z) schedule.

Definition yearly_summary (schedule : list entry) : option (list year_row) :=
  months <- Df.column Month schedule ;;
  let keys := sort_keys (nodup Z.eq_dec (map (fun m => ((m - 1) / 12)%Z) months)) in
  Some (map (fun k =>
               let group := year_group schedule k in
               let principal := Df.sum (map Principal group) in
               let interest := Df.sum (map Interest group) in
               {| Year := (k + 1)%Z;
                  TotalPaid := principal + interest;
                  YearPrincipal := principal;
                  YearInterest := interest;
                  YearBalance := last (map Balance group) 0 |})
            keys).

(** The number of rows of a schedule in which the yearly prepayment
    fell due. *)
Definition prepayments_due (yearly_prepay : Qc) (prepay_start_year : Z)
    (rows : list entry) : Z :=
  Z.of_nat (length (filter (fun e => prepay_due yearly_prepay prepay_start_year
                                       (Month e)) rows)).

(** * Proofs *)

(** ** From canonical rationals to [Q] *)

Lemma Qc_eq_Qeq (a b : Qc) : a = b <-> (this a == this b)%Q.
Proof.
  split.
  - intros ->. reflexivity.
  - apply Qc_is_canon.
Qed.

(** Restates goal and hypotheses on [Qc] as statements on [Q], where
    [lra], [nra] and [field] apply. *)
Ltac qc_unfold :=
  unfold Qcle, Qclt, Qcminus, Qcdiv, Qcplus, Qcmult, Qcopp, Qcinv,
         Py.num, Q2Qc in *;
  cbn [this] in *.

Ltac qc_eqs :=
  repeat match goal with
  | H : @eq Qc _ _ |- _ => apply Qc_eq_Qeq in H
  | H : ~ @eq Qc _ _ |- _ => rewrite Qc_eq_Qeq in H
  | |- @eq Qc _ _ => apply Qc_eq_Qeq
  | |- ~ @eq Qc _ _ => rewrite Qc_eq_Qeq
  end.

Ltac qc_hyps :=
  repeat match goal with
  | H : context [Qred _] |- _ => rewrite Qred_correct in H
  end.

Ltac qc2q := qc_eqs; qc_unfold; qc_hyps; rewrite ?Qred_correct.

(** ** The Python operations *)

Lemma gtb_true (a b : Qc) : Py.gtb a b = true <-> b < a.
Proof.
  unfold Py.gtb, Qclt. rewrite negb_true_iff.
  split; intro H.
  - apply Qnot_le_lt. intro Hle. apply Qle_bool_iff in Hle. congruence.
  - destruct (Qle_bool a b) eqn:E; [ | reflexivity ].
    apply Qle_bool_iff in E. apply Qle_not_lt in E. contradiction.
Qed.

Lemma gtb_false (a b : Qc) : Py.gtb a b = false <-> a <= b.
Proof.
  unfold Py.gtb, Qcle. rewrite negb_false_iff. apply Qle_bool_iff.
Qed.

Lemma eq0_false (a : Qc) : Py.eq0 a = false <-> a <> 0.
Proof.
  unfold Py.eq0, Qc_eq_bool.
  destruct (Qc_eq_dec a 0); split; intros; congruence.
Qed.

Lemma max_0_nonneg (a : Qc) : 0 <= a -> Py.max a 0 = a.
Proof.
  intro H. unfold Py.max.
  destruct (Py.gtb 0 a) eqn:E; [ | reflexivity ].
  apply gtb_true in E. qc2q. lra.
Qed.

(** ** Tables grown by appending a row *)

Lemma nth_error_snoc {A : Type} (l : list A) (x e : A) (i : nat) :
  nth_error (l ++ [x]) i = Some e ->
  nth_error l i = Some e \/ (i = length l /\ e = x).
Proof.
  intro H.
  destruct (Nat.lt_ge_cases i (length l)) as [ Hlt | Hge ].
  - left. rewrite nth_error_app1 in H by assumption. exact H.
  - right. rewrite nth_error_app2 in H by assumption.
    destruct (i - length l)%nat as [ | k ] eqn:Ek.
    + cbn in H. split; [ lia | congruence ].
    + cbn in H. destruct k; discriminate.
Qed.

Lemma last_row_snoc (l : list entry) (x : entry) : last_row (l ++ [x]) = Some x.
Proof.
  unfold last_row. rewrite length_app. cbn [length].
  replace (pred (length l + 1)) with (length l) by lia.
  rewrite nth_error_app2 by lia. rewrite Nat.sub_diag. reflexivity.
Qed.

Lemma last_row_nth (l : list entry) (e : entry) (i : nat) :
  nth_error l i = Some e -> S i = length l -> last_row l = Some e.
Proof.
  intros H Hi. unfold last_row. rewrite <- Hi. exact H.
Qed.

Lemma total_snoc (column : entry -> Qc) (l : list entry) (x : entry) :
  total column (l ++ [x]) = total column l + column x.
Proof.
  unfold total. rewrite fold_left_app. reflexivity.
Qed.

(** ** The loop *)

Section LoopFacts.

Variables (monthly_rate emi : Qc) (years : Z)
          (yearly_prepay : Qc) (prepay_start_year : Z).

Local Abbreviation body := (body monthly_rate emi yearly_prepay prepay_start_year).
Local Abbreviation while_loop :=
  (while_loop monthly_rate emi years yearly_prepay prepay_start_year).

(** The loop as the source reads: test, body, cap check, next pass. *)
Lemma while_loop_eq (s : locals) :
  while_loop s =
  if Py.gtb (balance s) 1 then
    if (month (body s) >? years * 12 * 3)%Z then (body s, Break)
    else while_loop (body s)
  else (s, CondFalse).
Proof.
  funelim (while_loop s);
    repeat match goal with
           | E : Py.gtb _ _ = _ |- _ => rewrite E
           | E : (_ >? _)%Z = _ |- _ => rewrite E
           end; reflexivity.
Qed.

(** Hoare rule for the loop: [I] holds whenever the test at the top
    is evaluated, [R] holds of the final variables and of the way
    the loop was left. *)
Lemma while_loop_rule (I : locals -> Prop) (R : locals -> loop_exit -> Prop) :
  (forall s, I s -> Py.gtb (balance s) 1 = false -> R s CondFalse) ->
  (forall s, I s -> Py.gtb (balance s) 1 = true ->
             (month (body s) > years * 12 * 3)%Z -> R (body s) Break) ->
  (forall s, I s -> Py.gtb (balance s) 1 = true ->
             (month (body s) <= years * 12 * 3)%Z -> I (body s)) ->
  forall s, I s -> R (fst (while_loop s)) (snd (while_loop s)).
Proof.
  intros Hexit Hbreak Hstep s.
  funelim (while_loop s); intro HI.
  - apply Hexit; assumption.
  - apply Hbreak; try assumption. lia.
  - match goal with
    | IH : forall I0 : locals -> Prop, _ |- _ => apply (IH I); try assumption
    end.
    apply Hstep; try assumption. lia.
Qed.

(** A property kept by every pass of the body holds when the loop
    is left. *)
Lemma while_loop_inv (I : locals -> Prop) :
  (forall s, I s -> Py.gtb (balance s) 1 = true -> I (body s)) ->
  forall s, I s -> I (fst (while_loop s)).
Proof.
  intros Hstep s HI.
  apply (while_loop_rule I (fun s' _ => I s')); auto.
Qed.

Local Abbreviation paid' := (paid monthly_rate emi yearly_prepay prepay_start_year).
Local Abbreviation row' := (row monthly_rate emi yearly_prepay prepay_start_year).
Local Abbreviation prepaid' := (prepaid yearly_prepay prepay_start_year).

Lemma body_eq (s : locals) :
  body s = {| balance := balance s - paid' s;
              schedule := schedule s ++ [row' s];
              month := (month s + 1)%Z |}.
Proof. reflexivity. Qed.

(** Line 68-69: the amount paid never exceeds the balance. *)
Lemma paid_le (s : locals) : paid' s <= balance s.
Proof.
  unfold paid. cbv zeta.
  match goal with |- context [Py.gtb ?a ?b] => destruct (Py.gtb a b) eqn:E end.
  - apply Qcle_refl.
  - apply gtb_false in E. exact E.
Qed.

(** Either the amount was capped to the balance, or it is the
    installment less the interest, plus the prepayment when due. *)
Lemma paid_cases (s : locals) :
  paid' s = balance s \/
  paid' s = emi - balance s * monthly_rate + prepaid' (month s).
Proof.
  unfold paid, prepaid. cbv zeta.
  match goal with |- context [Py.gtb ?a ?b] => destruct (Py.gtb a b) end.
  - left. reflexivity.
  - right. destruct (prepay_due yearly_prepay prepay_start_year (month s)).
    + reflexivity.
    + ring.
Qed.

Lemma balance_body_nonneg (s : locals) : 0 <= balance (body s).
Proof.
  rewrite body_eq. cbn [balance].
  pose proof (paid_le s) as H. qc2q. lra.
Qed.

(** Line 78: [max(balance, 0)] is the balance itself. *)
Lemma row_balance (s : locals) : Balance (row' s) = balance (body s).
Proof.
  rewrite body_eq. cbn [balance Balance row].
  apply max_0_nonneg.
  pose proof (paid_le s) as H. qc2q. lra.
Qed.

Lemma row_sum (s : locals) :
  Principal (row' s) + Interest (row' s) = EMI (row' s) + prepaid' (Month (row' s)) \/
  Balance (row' s) = 0.
Proof.
  destruct (paid_cases s) as [ E | E ].
  - right. rewrite row_balance, body_eq. cbn [balance]. rewrite E. ring.
  - left. cbn [Principal Interest EMI Month row]. rewrite E. ring.
Qed.

(** *** Properties that hold for all values of the parameters *)

(** The month counter is one more than the number of rows. *)
Lemma month_counts_rows (principal : Qc) :
  let s := fst (while_loop (init principal)) in
  month s = (1 + Z.of_nat (length (schedule s)))%Z.
Proof.
  apply (while_loop_inv
           (fun s => month s = (1 + Z.of_nat (length (schedule s)))%Z)).
  - intros s Hs _. rewrite body_eq. cbn [month schedule].
    rewrite length_app. cbn [length]. lia.
  - reflexivity.
Qed.

(** The last row shows the balance the loop was left with. *)
Lemma last_row_balance (principal : Qc) :
  let s := fst (while_loop (init principal)) in
  forall e, last_row (schedule s) = Some e -> Balance e = balance s.
Proof.
  apply (while_loop_inv
           (fun s => forall e, last_row (schedule s) = Some e ->
                               Balance e = balance s)).
  - intros s _ _ e. rewrite body_eq at 1. cbn [schedule].
    rewrite last_row_snoc. intro E. injection E as <-.
    apply row_balance.
  - intros e. cbn. discriminate.
Qed.

(** The principal is the sum of the amounts paid and of the balance
    the loop was left with. *)
Lemma principal_conserved (principal : Qc) :
  let s := fst (while_loop (init principal)) in
  total Principal (schedule s) + balance s = principal.
Proof.
  apply (while_loop_inv
           (fun s => total Principal (schedule s) + balance s = principal)).
  - intros s Hs _. rewrite body_eq. cbn [schedule balance].
    rewrite total_snoc. cbn [Principal row]. rewrite <- Hs. ring.
  - cbn. ring.
Qed.

(** When the loop is left by [break], a pass of the body has just
    been made from variables that passed the test, and the month
    counter exceeds the cap. *)
Lemma break_after_body (s0 : locals) :
  snd (while_loop s0) = Break ->
  exists s, Py.gtb (balance s) 1 = true /\
            fst (while_loop s0) = body s /\
            (years * 12 * 3 < month (body s))%Z.
Proof.
  apply (while_loop_rule
           (fun _ => True)
           (fun s' x => x = Break ->
              exists s, Py.gtb (balance s) 1 = true /\ s' = body s /\
                        (years * 12 * 3 < month (body s))%Z));
    auto.
  - discriminate.
  - intros s _ Hs Hc _. exists s. repeat split; [ exact Hs | lia ].
Qed.

(** When the loop is left by its test, the balance is at most 1. *)
Lemma cond_false_balance (s0 : locals) :
  snd (while_loop s0) = CondFalse -> balance (fst (while_loop s0)) <= 1.
Proof.
  apply (while_loop_rule
           (fun _ => True)
           (fun s' x => x = CondFalse -> balance s' <= 1));
    auto.
  - intros s _ Hs _. apply gtb_false. exact Hs.
  - discriminate.
Qed.

(** The number of rows never exceeds the cap, or 1 when the cap is
    not positive. *)
Lemma rows_le_cap (principal : Qc) :
  (Z.of_nat (length (schedule (fst (while_loop (init principal)))))
   <= Z.max 1 (years * 12 * 3))%Z.
Proof.
  pose proof (month_counts_rows principal) as Hm. cbv zeta in Hm.
  enough (month (fst (while_loop (init principal)))
          <= Z.max 1 (years * 12 * 3) + 1)%Z by lia.
  apply (while_loop_rule
           (fun s => month s <= Z.max 1 (years * 12 * 3))%Z
           (fun s' _ => month s' <= Z.max 1 (years * 12 * 3) + 1)%Z).
  - intros s Hs _. lia.
  - intros s Hs _ _. rewrite body_eq. cbn [month]. lia.
  - intros s Hs _ Hc. lia.
  - cbn. lia.
Qed.

(** Rows are numbered from 1 in the order of the table. *)
Lemma rows_month (principal : Qc) :
  let s := fst (while_loop (init principal)) in
  forall i e, nth_error (schedule s) i = Some e -> Month e = Z.of_nat (S i).
Proof.
  cbv zeta.
  enough (H :
    (fun s =>
       (forall i e, nth_error (schedule s) i = Some e ->
                    Month e = Z.of_nat (S i)) /\
       month s = (1 + Z.of_nat (length (schedule s)))%Z)
    (fst (while_loop (init principal)))) by apply H.
  apply while_loop_inv.
  - intros s [Hrows Hm] _. split.
    + intros i e. rewrite body_eq. cbn [schedule]. intro Hn.
      apply nth_error_snoc in Hn. destruct Hn as [ Hn | [-> ->] ].
      * exact (Hrows i e Hn).
      * cbn [Month row]. lia.
    + rewrite body_eq. cbn [month schedule].
      rewrite length_app. cbn [length]. lia.
  - split.
    + intros [ | i ] e; cbn; discriminate.
    + reflexivity.
Qed.

(** Every row splits the installment (plus the prepayment when one
    is due) into principal and interest, unless it is the last row
    and clears the balance. *)
Lemma rows_split_installment (principal : Qc) :
  let s := fst (while_loop (init principal)) in
  forall i e, nth_error (schedule s) i = Some e ->
    Principal e + Interest e = EMI e + prepaid' (Month e) \/
    (S i = length (schedule s) /\ Balance e = 0).
Proof.
  cbv zeta.
  enough (H :
    (fun s =>
       (forall i e, nth_error (schedule s) i = Some e ->
          Principal e + Interest e = EMI e + prepaid' (Month e) \/
          (S i = length (schedule s) /\ Balance e = 0)) /\
       (forall e, last_row (schedule s) = Some e -> Balance e = balance s))
    (fst (while_loop (init principal)))) by apply H.
  apply while_loop_inv.
  - intros s [Hrows Hlast] Hgt. apply gtb_true in Hgt. split.
    + intros i e. rewrite body_eq. cbn [schedule]. intro Hn.
      apply nth_error_snoc in Hn. destruct Hn as [ Hn | [-> ->] ].
      * destruct (Hrows i e Hn) as [ Heq | [Hi Hz] ]; [ left; exact Heq | ].
        exfalso. rewrite (Hlast e (last_row_nth _ _ _ Hn Hi)) in Hz.
        rewrite Hz in Hgt. revert Hgt. unfold Qclt. cbn. discriminate.
      * destruct (row_sum s) as [ Heq | Hz ]; [ left; exact Heq | right ].
        split; [ rewrite length_app; cbn; lia | exact Hz ].
    + intros e. rewrite body_eq at 1. cbn [schedule].
      rewrite last_row_snoc. intro E. injection E as <-. apply row_balance.
  - split.
    + intros [ | i ] e; cbn; discriminate.
    + intros e. cbn. discriminate.
Qed.

End LoopFacts.

(** ** Powers of [1 + r] on [Q] *)

Section Powers.

Local Open Scope Q_scope.

Lemma Qpower_succ (x : Q) (n : nat) :
  ~ x == 0 -> x ^ Z.of_nat (S n) == x * x ^ Z.of_nat n.
Proof.
  intro Hx.
  replace (Z.of_nat (S n)) with (1 + Z.of_nat n)%Z by lia.
  rewrite Qpower_plus by assumption.
  reflexivity.
Qed.

(** [(1+r)^n - 1 < n * r * (1+r)^n] for [r > 0] and [n >= 1]: the
    installments add up to more than the principal. *)
Lemma compound_lt_linear (r : Q) (n : nat) :
  0 < r ->
  (1 + r) ^ Z.of_nat (S n) - 1 <
  inject_Z (Z.of_nat (S n)) * r * (1 + r) ^ Z.of_nat (S n).
Proof.
  intro Hr.
  assert (Hx : ~ 1 + r == 0) by lra.
  induction n as [ | n IH ].
  - change (Z.of_nat 1) with 1%Z. change (inject_Z 1) with 1.
    rewrite Qpower_1_r. nra.
  - rewrite (Qpower_succ _ (S n)) by assumption.
    assert (Hge : 1 <= (1 + r) ^ Z.of_nat (S n))
      by (apply Qpower_1_le; [ lra | lia ]).
    replace (Z.of_nat (S (S n))) with (Z.of_nat (S n) + 1)%Z by lia.
    rewrite inject_Z_plus. change (inject_Z 1) with 1.
    set (X := (1 + r) ^ Z.of_nat (S n)) in *.
    set (m := inject_Z (Z.of_nat (S n))) in *.
    assert (Hm : 0 <= m).
    { unfold m. change 0 with (inject_Z 0). rewrite <- Zle_Qle. lia. }
    nra.
Qed.

End Powers.

(** ** calculate_emi *)

Lemma monthly_Q (annual_rate : Qc) :
  (this (monthly annual_rate) == this annual_rate * (1 # 1200))%Q.
Proof.
  unfold monthly. qc_unfold. rewrite !Qred_correct.
  change (inject_Z 100) with (100 # 1)%Q. change (inject_Z 12) with (12 # 1)%Q.
  field.
Qed.

Lemma monthly_pos (annual_rate : Qc) : 0 < annual_rate -> 0 < monthly annual_rate.
Proof.
  intro H. unfold Qclt in *. rewrite monthly_Q.
  change (this 0) with 0%Q in *. lra.
Qed.

Lemma monthly_nonneg (annual_rate : Qc) : 0 <= annual_rate -> 0 <= monthly annual_rate.
Proof.
  intro H. unfold Qcle in *. rewrite monthly_Q.
  change (this 0) with 0%Q in *. lra.
Qed.

Lemma monthly_0 : monthly 0 = 0.
Proof. apply Qc_is_canon. reflexivity. Qed.

Lemma compound_Q (annual_rate : Qc) (years : Z) :
  (this (compound annual_rate years) ==
   (1 + this (monthly annual_rate)) ^ (years * 12))%Q.
Proof.
  unfold compound. qc_unfold. rewrite !Qred_correct. reflexivity.
Qed.

Lemma compound_gt_1 (annual_rate : Qc) (years : Z) :
  0 < annual_rate -> (1 <= years)%Z -> 1 < compound annual_rate years.
Proof.
  intros Hr Hy. apply monthly_pos in Hr.
  unfold Qclt in *. rewrite compound_Q.
  change (this 0) with 0%Q in *. change (this 1) with 1%Q.
  apply Qpower_1_lt; [ lra | lia ].
Qed.

(** With a positive rate and at least one year, no operation of
    [calculate_emi] raises, and the result is the annuity formula. *)
Lemma calculate_emi_rate_pos (principal annual_rate : Qc) (years : Z) :
  0 < annual_rate -> (1 <= years)%Z ->
  calculate_emi principal annual_rate years =
  Some (principal *
        (monthly annual_rate * compound annual_rate years
         / (compound annual_rate years - 1))).
Proof.
  intros Hr Hy.
  pose proof (compound_gt_1 _ _ Hr Hy) as HX.
  pose proof (monthly_pos _ Hr) as Hm.
  unfold calculate_emi.
  assert (E0 : Py.eq0 annual_rate = false).
  { apply eq0_false. intro E. subst. revert Hr. unfold Qclt. apply Qlt_irrefl. }
  rewrite E0.
  fold (monthly annual_rate).
  assert (E1 : Py.eq0 (1 + monthly annual_rate) = false).
  { apply eq0_false. qc2q. lra. }
  unfold Py.pow. rewrite E1. cbn [andb Py.bind].
  fold (compound annual_rate years).
  assert (E2 : Py.eq0 (compound annual_rate years - 1) = false).
  { apply eq0_false. qc2q. lra. }
  unfold Py.div. unfold compound in E2 |- *. rewrite E2. reflexivity.
Qed.

(** With a zero rate and a non-zero number of years, the result is the
    straight-line installment. *)
Lemma calculate_emi_rate_0 (principal : Qc) (years : Z) :
  years <> 0%Z ->
  calculate_emi principal 0 years = Some (principal / Py.num (years * 12)).
Proof.
  intro Hy. unfold calculate_emi.
  change (Py.eq0 0) with true. cbv iota.
  unfold Py.div.
  assert (E : Py.eq0 (Py.num (years * 12)) = false).
  { apply eq0_false. qc2q. change 0%Q with (inject_Z 0).
    rewrite inject_Z_injective. lia. }
  rewrite E. reflexivity.
Qed.

(** The defining equation of the annuity, free of division. *)
Lemma annuity_eq (principal annual_rate : Qc) (years : Z) :
  0 < annual_rate -> (1 <= years)%Z ->
  annuity principal annual_rate years * (compound annual_rate years - 1) =
  principal * monthly annual_rate * compound annual_rate years.
Proof.
  intros Hr Hy.
  pose proof (compound_gt_1 _ _ Hr Hy) as HX.
  unfold annuity. field.
  qc2q. lra.
Qed.

(** The same equation and the bounds on its terms, on [Q]. *)
Lemma annuity_Q (principal annual_rate : Qc) (years : Z) :
  0 < annual_rate -> (1 <= years)%Z ->
  let e := this (annuity principal annual_rate years) in
  let X := this (compound annual_rate years) in
  let m := this (monthly annual_rate) in
  (e * (X - 1) == this principal * m * X /\ 1 < X /\ 0 < m /\
   X - 1 < inject_Z (years * 12) * m * X)%Q.
Proof.
  intros Hr Hy e X m.
  pose proof (compound_gt_1 _ _ Hr Hy) as HX.
  pose proof (monthly_pos _ Hr) as Hm.
  pose proof (annuity_eq principal _ _ Hr Hy) as He.
  pose proof (compound_Q annual_rate years) as HXQ.
  fold X m in HXQ.
  qc2q. fold e X m in He, HX, Hm. repeat split; try assumption.
  rewrite HXQ.
  destruct (Z.to_nat (years * 12)) as [ | k ] eqn:Ek; [ lia | ].
  replace (years * 12)%Z with (Z.of_nat (S k)) by lia.
  apply compound_lt_linear. assumption.
Qed.



(** ** Loans that amortize *)

Lemma prepaid_nonneg (yearly_prepay : Qc) (prepay_start_year : Z) (month : Z) :
  0 <= prepaid yearly_prepay prepay_start_year month.
Proof.
  unfold prepaid, prepay_due. cbv zeta.
  destruct (Py.gtb yearly_prepay 0) eqn:E.
  - apply gtb_true in E.
    match goal with |- context [if ?c then _ else _] => destruct c end.
    + apply Qclt_le_weak. exact E.
    + apply Qcle_refl.
  - rewrite andb_false_r. apply Qcle_refl.
Qed.

Section Amortizing.

Variables (monthly_rate emi : Qc) (years : Z)
          (yearly_prepay : Qc) (prepay_start_year : Z) (principal : Qc).

Local Abbreviation body := (body monthly_rate emi yearly_prepay prepay_start_year).
Local Abbreviation while_loop :=
  (while_loop monthly_rate emi years yearly_prepay prepay_start_year).
Local Abbreviation paid' := (paid monthly_rate emi yearly_prepay prepay_start_year).
Local Abbreviation row' := (row monthly_rate emi yearly_prepay prepay_start_year).
Local Abbreviation prepaid' := (prepaid yearly_prepay prepay_start_year).

(** The rate is not negative, and the installment exceeds the
    interest on the whole principal. *)
Hypothesis rate_nonneg : 0 <= monthly_rate.
Hypothesis emi_gt_interest : principal * monthly_rate < emi.

(** While the balance is above 1 and at most the principal, a
    positive amount is paid. *)
Lemma paid_pos (s : locals) :
  1 < balance s -> balance s <= principal -> 0 < paid' s.
Proof.
  intros Hb HP.
  pose proof (prepaid_nonneg yearly_prepay prepay_start_year (month s)) as Hpp.
  destruct (paid_cases monthly_rate emi yearly_prepay prepay_start_year s)
    as [ E | E ]; rewrite E; clear E.
  - qc2q. lra.
  - set (d := prepaid' (month s)) in *. clearbody d.
    qc2q. nra.
Qed.

Lemma in_range_body (s : locals) :
  in_range principal s -> Py.gtb (balance s) 1 = true -> in_range principal (body s).
Proof.
  intros [H0 HP] Hgt. apply gtb_true in Hgt.
  pose proof (paid_pos s Hgt HP) as Hpos.
  pose proof (paid_le monthly_rate emi yearly_prepay prepay_start_year s) as Hle.
  split; rewrite body_eq; cbn [balance]; qc2q; lra.
Qed.

Lemma in_range_init : 0 <= principal -> in_range principal (init principal).
Proof.
  intro H. split; [ exact H | apply Qcle_refl ].
Qed.

(** Every row has a positive principal part and a non-negative
    interest part. *)
Lemma rows_positive :
  0 <= principal ->
  Forall (fun e => 0 < Principal e /\ 0 <= Interest e)
         (schedule (fst (while_loop (init principal)))).
Proof.
  intro HP.
  enough (H :
    (fun s =>
       Forall (fun e => 0 < Principal e /\ 0 <= Interest e) (schedule s) /\
       in_range principal s)
    (fst (while_loop (init principal)))) by apply H.
  apply while_loop_inv.
  - intros s [Hrows Hr] Hgt. split; [ | apply in_range_body; assumption ].
    rewrite body_eq. cbn [schedule]. apply Forall_app. split; [ exact Hrows | ].
    constructor; [ | constructor ].
    apply gtb_true in Hgt. destruct Hr as [H0 HP'].
    split; cbn [Principal Interest row].
    + apply paid_pos; assumption.
    + qc2q. nra.
  - split; [ constructor | apply in_range_init; exact HP ].
Qed.

(** The balances shown by consecutive rows never increase. *)
Lemma rows_balance_non_increasing :
  0 <= principal ->
  forall i a b,
    nth_error (schedule (fst (while_loop (init principal)))) i = Some a ->
    nth_error (schedule (fst (while_loop (init principal)))) (S i) = Some b ->
    Balance b <= Balance a.
Proof.
  intro HP.
  enough (H :
    (fun s =>
       (forall i a b, nth_error (schedule s) i = Some a ->
                      nth_error (schedule s) (S i) = Some b ->
                      Balance b <= Balance a) /\
       (forall e, last_row (schedule s) = Some e -> Balance e = balance s) /\
       in_range principal s)
    (fst (while_loop (init principal)))) by apply H.
  apply while_loop_inv.
  - intros s (Hrows & Hlast & Hr) Hgt.
    split; [ | split; [ | apply in_range_body; assumption ] ].
    + intros i a b. rewrite body_eq. cbn [schedule]. intros Ha Hb.
      apply nth_error_snoc in Hb. destruct Hb as [ Hb | [Hi ->] ].
      * assert (Hlt : (i < length (schedule s))%nat).
        { apply Nat.lt_succ_l. apply nth_error_Some. congruence. }
        rewrite nth_error_app1 in Ha by exact Hlt.
        exact (Hrows i a b Ha Hb).
      * rewrite nth_error_app1 in Ha by lia.
        rewrite (Hlast a (last_row_nth _ _ _ Ha Hi)).
        rewrite row_balance, body_eq. cbn [balance].
        apply gtb_true in Hgt. destruct Hr as [H0 HP'].
        pose proof (paid_pos s Hgt HP') as Hpos.
        qc2q. lra.
    + intros e. rewrite body_eq at 1. cbn [schedule].
      rewrite last_row_snoc. intro E. injection E as <-. apply row_balance.
  - split; [ | split; [ | apply in_range_init; exact HP ] ].
    + intros [ | i ] a b; cbn; discriminate.
    + intros e. cbn. discriminate.
Qed.

(** *** Convergence *)

(** [bound k] bounds the balance after [k] payments: it starts
    at the principal, follows the recurrence of a loan without
    prepayment, and is used up after [n] payments, where [n] is below
    the cap. *)
Variables (bound : Z -> Qc) (n : Z).

Hypothesis n_within_cap : (1 <= n < years * 12 * 3)%Z.
Hypothesis bound_0 : bound 0%Z = principal.
Hypothesis bound_step :
  forall k, (0 <= k)%Z ->
    bound (k + 1)%Z = bound k * (1 + monthly_rate) - emi.
Hypothesis bound_nonneg :
  forall k, (0 <= k <= n)%Z -> 0 <= bound k.
Hypothesis bound_pos :
  forall k, (0 <= k)%Z -> 0 < bound k -> (k < n)%Z.

Lemma below_bound_month (s : locals) :
  below_bound bound n s -> Py.gtb (balance s) 1 = true -> (month s <= n)%Z.
Proof.
  intros (Hm & H0 & HU) Hgt. apply gtb_true in Hgt.
  enough (month s - 1 < n)%Z by lia.
  apply bound_pos; [ lia | ].
  qc2q. lra.
Qed.

Lemma below_bound_body (s : locals) :
  below_bound bound n s -> Py.gtb (balance s) 1 = true ->
  below_bound bound n (body s).
Proof.
  intros Hs Hgt.
  pose proof (below_bound_month s Hs Hgt) as Hmn.
  destruct Hs as (Hm & H0 & HU).
  split; [ | split ].
  - rewrite body_eq. cbn [month]. lia.
  - apply balance_body_nonneg.
  - rewrite body_eq. cbn [month balance].
    replace (month s + 1 - 1)%Z with (month s - 1 + 1)%Z by lia.
    pose proof (prepaid_nonneg yearly_prepay prepay_start_year (month s)) as Hpp.
    destruct (paid_cases monthly_rate emi yearly_prepay prepay_start_year s)
      as [ E | E ]; rewrite E; clear E.
    + pose proof (bound_nonneg (month s - 1 + 1)%Z ltac:(lia)) as HU'.
      qc2q. lra.
    + rewrite bound_step by lia.
      set (d := prepaid' (month s)) in *. clearbody d.
      set (u := bound (month s - 1)%Z) in *. clearbody u.
      qc2q. nra.
Qed.

(** The loop is left by its test, never by [break], after at most
    [n] passes. *)
Lemma while_loop_converges :
  0 <= principal ->
  snd (while_loop (init principal)) = CondFalse /\
  (month (fst (while_loop (init principal))) <= n + 1)%Z.
Proof.
  intro HP.
  apply (while_loop_rule monthly_rate emi years yearly_prepay prepay_start_year
           (below_bound bound n)
           (fun s x => x = CondFalse /\ (month s <= n + 1)%Z)).
  - intros s (Hm & _) _. split; [ reflexivity | lia ].
  - intros s Hs Hgt Hcap. exfalso.
    pose proof (below_bound_month s Hs Hgt) as Hmn.
    rewrite body_eq in Hcap. cbn [month] in Hcap. lia.
  - intros s Hs Hgt _. apply below_bound_body; assumption.
  - split; [ cbn; lia | split ].
    + exact HP.
    + cbn [init month balance]. change (1 - 1)%Z with 0%Z.
      rewrite bound_0. apply Qcle_refl.
Qed.

(** What is left unpaid is the last balance, between 0 and 1. *)
Lemma residual_at_most_1 :
  0 <= principal ->
  let rows := schedule (fst (while_loop (init principal))) in
  0 <= principal - total Principal rows /\
  principal - total Principal rows <= 1.
Proof.
  intro HP. cbv zeta.
  destruct (while_loop_converges HP) as [Hexit _].
  apply cond_false_balance in Hexit.
  pose proof (principal_conserved monthly_rate emi years yearly_prepay
                prepay_start_year principal) as Hsum.
  cbv zeta in Hsum.
  assert (H0 : in_range principal (fst (while_loop (init principal)))).
  { apply (while_loop_inv monthly_rate emi years yearly_prepay
             prepay_start_year (in_range principal)).
    - apply in_range_body.
    - apply in_range_init. exact HP. }
  destruct H0 as [H0 _].
  set (rows := schedule (fst (while_loop (init principal)))) in *.
  set (b := balance (fst (while_loop (init principal)))) in *.
  set (t := total Principal rows) in *.
  clearbody t b. clear rows.
  rewrite <- Hsum. qc2q. split; lra.
Qed.

End Amortizing.

(** ** The closed form of the outstanding balance *)

Lemma num_Q (z : Z) : (this (Py.num z) == inject_Z z)%Q.
Proof. unfold Py.num. cbn [this Q2Qc]. apply Qred_correct. Qed.

Lemma num_pos (z : Z) : (0 < z)%Z -> 0 < Py.num z.
Proof.
  intro H. unfold Qclt. rewrite num_Q. change (this 0) with (inject_Z 0).
  rewrite <- Zlt_Qlt. exact H.
Qed.

Lemma Qc_div_mult (a b : Qc) : b <> 0 -> a / b * b = a.
Proof. intro H. field. exact H. Qed.

Lemma Qc_lt_neq (a : Qc) : 0 < a -> a <> 0.
Proof.
  intros H E. subst. revert H. unfold Qclt. apply Qlt_irrefl.
Qed.

Section ZeroRate.

Variables (principal : Qc) (years : Z).
Hypothesis principal_pos : 0 < principal.
Hypothesis years_pos : (1 <= years)%Z.

Local Abbreviation emi := (principal / Py.num (years * 12)).
Local Abbreviation U := (outstanding principal 0 years).

Lemma U_zero_rate (k : Z) :
  (this (U k) * inject_Z (years * 12)
   == this principal * (inject_Z (years * 12) - inject_Z k))%Q.
Proof.
  assert (Hn : Py.num (years * 12) <> 0) by (apply Qc_lt_neq, num_pos; lia).
  pose proof (Qc_div_mult (principal * Py.num (years * 12 - k)) _ Hn) as H.
  change (principal * Py.num (years * 12 - k) / Py.num (years * 12))
    with (U k) in H.
  set (u := U k) in *. clearbody u.
  apply Qc_eq_Qeq in H. cbn [this Qcmult Q2Qc] in H.
  rewrite !Qred_correct, !num_Q in H.
  rewrite H. unfold Zminus. rewrite inject_Z_plus, inject_Z_opp. ring.
Qed.

Lemma emi_zero_rate :
  (this emi * inject_Z (years * 12) == this principal)%Q.
Proof.
  assert (Hn : Py.num (years * 12) <> 0) by (apply Qc_lt_neq, num_pos; lia).
  pose proof (Qc_div_mult principal _ Hn) as H.
  set (e := emi) in *. clearbody e.
  apply Qc_eq_Qeq in H. cbn [this Qcmult Q2Qc] in H.
  rewrite !Qred_correct, !num_Q in H. exact H.
Qed.

Lemma years_12_pos : (0 < inject_Z (years * 12))%Q.
Proof. change 0%Q with (inject_Z 0). rewrite <- Zlt_Qlt. lia. Qed.

Lemma zero_rate_facts :
  principal * monthly 0 < emi /\
  U 0%Z = principal /\
  (forall k, (0 <= k)%Z -> U (k + 1)%Z = U k * (1 + monthly 0) - emi) /\
  (forall k, (0 <= k <= years * 12)%Z -> 0 <= U k) /\
  (forall k, (0 <= k)%Z -> 0 < U k -> (k < years * 12)%Z).
Proof.
  pose proof years_12_pos as HN.
  pose proof emi_zero_rate as He.
  pose proof U_zero_rate as HU.
  rewrite monthly_0.
  assert (HP : (0 < this principal)%Q) by exact principal_pos.
  set (N := inject_Z (years * 12)) in *.
  set (e := emi) in *. set (u := U) in *. clearbody e u.
  split; [ | split; [ | split; [ | split ] ] ].
  - qc2q. clearbody N. nra.
  - specialize (HU 0%Z). change (inject_Z 0) with 0%Q in HU.
    qc2q. apply (Qmult_inj_r _ _ N); [ lra | ]. rewrite HU. ring.
  - intros k Hk.
    pose proof (HU k) as Hk0. pose proof (HU (k + 1)%Z) as Hk1.
    rewrite inject_Z_plus in Hk1. change (inject_Z 1) with 1%Q in Hk1.
    qc2q. apply (Qmult_inj_r _ _ N); [ lra | ].
    rewrite Hk1.
    setoid_replace ((this (u k) * (1 + 0) + - this e) * N)%Q
      with (this (u k) * N - this e * N)%Q by ring.
    rewrite Hk0, He. ring.
  - intros k Hk. specialize (HU k).
    assert (HK : (inject_Z k <= N)%Q) by (unfold N; rewrite <- Zle_Qle; lia).
    qc2q. clearbody N. nra.
  - intros k Hk Hpos. specialize (HU k).
    rewrite Zlt_Qlt. fold N.
    qc2q. clearbody N. nra.
Qed.

End ZeroRate.

Section PositiveRate.

Variables (principal annual_rate : Qc) (years : Z).
Hypothesis principal_pos : 0 < principal.
Hypothesis rate_pos : 0 < annual_rate.
Hypothesis years_pos : (1 <= years)%Z.

Local Abbreviation m := (monthly annual_rate).
Local Abbreviation X := (compound annual_rate years).
Local Abbreviation emi := (annuity principal annual_rate years).
Local Abbreviation U := (outstanding principal annual_rate years).
Local Abbreviation pw := (growth annual_rate).

Lemma pw_Q (k : Z) : (this (pw k) == (1 + this m) ^ k)%Q.
Proof.
  unfold growth. set (r := m). clearbody r.
  qc_unfold. rewrite !Qred_correct. reflexivity.
Qed.

Lemma pw_succ (k : Z) : (0 <= k)%Z -> pw (k + 1) = pw k * (1 + m).
Proof.
  intro Hk.
  pose proof (monthly_pos _ rate_pos) as Hm.
  pose proof (pw_Q k) as Hk0. pose proof (pw_Q (k + 1)) as Hk1.
  set (r := m) in *. set (p0 := pw k) in *. set (p1 := pw (k + 1)) in *.
  clearbody r p0 p1.
  rewrite Qpower_plus in Hk1 by (qc2q; lra).
  rewrite Qpower_1_r, <- Hk0 in Hk1.
  qc2q. exact Hk1.
Qed.

Lemma X_gt_1 : 1 < X.
Proof. apply compound_gt_1; assumption. Qed.

Lemma X_minus_1_neq : X - 1 <> 0.
Proof.
  pose proof X_gt_1 as H. set (x := X) in *. clearbody x. qc2q. lra.
Qed.

Lemma U_positive_rate (k : Z) : U k = principal * (X - pw k) / (X - 1).
Proof.
  unfold outstanding.
  assert (E : Py.eq0 annual_rate = false)
    by (apply eq0_false, Qc_lt_neq, rate_pos).
  rewrite E. reflexivity.
Qed.

Lemma U_times_den (k : Z) : U k * (X - 1) = principal * (X - pw k).
Proof.
  rewrite U_positive_rate. apply Qc_div_mult. exact X_minus_1_neq.
Qed.

Lemma positive_rate_facts :
  principal * m < emi /\
  U 0%Z = principal /\
  (forall k, (0 <= k)%Z -> U (k + 1)%Z = U k * (1 + m) - emi) /\
  (forall k, (0 <= k <= years * 12)%Z -> 0 <= U k) /\
  (forall k, (0 <= k)%Z -> 0 < U k -> (k < years * 12)%Z).
Proof.
  pose proof X_gt_1 as HX.
  pose proof X_minus_1_neq as HX1.
  pose proof (monthly_pos _ rate_pos) as Hm.
  pose proof (compound_Q annual_rate years) as HXQ.
  pose proof principal_pos as HP.
  split; [ | split; [ | split; [ | split ] ] ].
  - pose proof (annuity_eq principal _ _ rate_pos years_pos) as He.
    set (e := emi) in *. set (x := X) in *. set (r := m) in *.
    clearbody e x r. clear HXQ HX1. qc2q.
    assert (Hprod : (0 < (this e - this principal * this r) * (this x - 1))%Q)
      by nra.
    destruct (Qlt_le_dec (this principal * this r) (this e)) as [ H | H ];
      [ exact H | exfalso; nra ].
  - rewrite U_positive_rate.
    change (pw 0) with 1. field. exact HX1.
  - intros k Hk. rewrite !U_positive_rate, (pw_succ k Hk).
    unfold annuity. field. exact HX1.
  - intros k Hk.
    pose proof (U_times_den k) as Hu. pose proof (pw_Q k) as Hp.
    assert (Hle : (this (pw k) <= this X)%Q).
    { rewrite Hp, HXQ. apply Qpower_le_compat_l; [ lia | ].
      clear - Hm. set (r := m) in *. clearbody r. qc2q. lra. }
    set (u := U k) in *. set (p := pw k) in *.
    set (x := X) in *. set (r := m) in *.
    clearbody u p x r. clear Hp HXQ HX1.
    qc2q. nra.
  - intros k Hk Hpos.
    pose proof (U_times_den k) as Hu. pose proof (pw_Q k) as Hp.
    apply (Qpower_lt_compat_l_inv (1 + this m));
      [ | clear - Hm; set (r := m) in *; clearbody r; qc2q; lra ].
    rewrite <- Hp, <- HXQ.
    set (u := U k) in *. set (p := pw k) in *.
    set (x := X) in *. set (r := m) in *.
    clearbody u p x r. clear Hp HXQ HX1.
    qc2q.
    destruct (Qlt_le_dec (this p) (this x)) as [ H | H ];
      [ exact H | exfalso; nra ].
Qed.

End PositiveRate.

(** For a valid loan the installment is computed, it exceeds the
    interest on the whole principal, and [outstanding] is the balance
    of the loan without prepayment, used up after [years * 12]
    payments. *)
Lemma valid_loan (principal annual_rate : Qc) (years : Z) :
  0 < principal -> 0 <= annual_rate -> (1 <= years)%Z ->
  exists emi,
    calculate_emi principal annual_rate years = Some emi /\
    0 <= monthly annual_rate /\
    principal * monthly annual_rate < emi /\
    outstanding principal annual_rate years 0 = principal /\
    (forall k, (0 <= k)%Z ->
       outstanding principal annual_rate years (k + 1) =
       outstanding principal annual_rate years k * (1 + monthly annual_rate) - emi) /\
    (forall k, (0 <= k <= years * 12)%Z ->
       0 <= outstanding principal annual_rate years k) /\
    (forall k, (0 <= k)%Z ->
       0 < outstanding principal annual_rate years k -> (k < years * 12)%Z).
Proof.
  intros HP Hr Hy.
  pose proof (monthly_nonneg _ Hr) as Hm.
  destruct (Qc_eq_dec annual_rate 0) as [ -> | Hne ].
  - exists (principal / Py.num (years * 12)).
    split; [ apply calculate_emi_rate_0; lia | ].
    split; [ exact Hm | ].
    exact (zero_rate_facts principal years HP Hy).
  - assert (Hr' : 0 < annual_rate).
    { apply Qcle_lt_or_eq in Hr. destruct Hr as [ Hr | Hr ];
        [ exact Hr | congruence ]. }
    exists (annuity principal annual_rate years).
    split; [ apply calculate_emi_rate_pos; assumption | ].
    split; [ exact Hm | ].
    exact (positive_rate_facts principal annual_rate years HP Hr' Hy).
Qed.

(** ** With and without prepayment *)

Section Prepayment.

Variables (monthly_rate emi : Qc) (years : Z)
          (yearly_prepay : Qc) (prepay_start_year : Z).

Hypothesis rate_nonneg : 0 <= monthly_rate.

Local Abbreviation body_with :=
  (body monthly_rate emi yearly_prepay prepay_start_year).
Local Abbreviation body_without := (body monthly_rate emi 0 1).
Local Abbreviation loop_with :=
  (while_loop monthly_rate emi years yearly_prepay prepay_start_year).
Local Abbreviation loop_without := (while_loop monthly_rate emi years 0 1).

(** The balance after a pass is [max(balance * (1 + rate) - emi - prepayment, 0)]. *)
Lemma balance_body_cases (pp : Qc) (st : Z) (s : locals) :
  let next := balance s * (1 + monthly_rate) - emi - prepaid pp st (month s) in
  (next < 0 /\ balance (body monthly_rate emi pp st s) = 0) \/
  (0 <= next /\ balance (body monthly_rate emi pp st s) = next).
Proof.
  cbv zeta. rewrite body_eq. cbn [balance].
  unfold paid, prepaid. cbv zeta.
  destruct (prepay_due pp st (month s));
    match goal with |- context [Py.gtb ?a ?b] => destruct (Py.gtb a b) eqn:E end;
    [ apply gtb_true in E | apply gtb_false in E
    | apply gtb_true in E | apply gtb_false in E ];
    [ left | right | left | right ];
    (split; [ qc2q; lra | ring ]).
Qed.

Lemma prepaid_none (month : Z) : prepaid 0 1 month = 0.
Proof.
  unfold prepaid, prepay_due. cbv zeta.
  change (Py.gtb 0 0) with false. rewrite andb_false_r. reflexivity.
Qed.

(** One pass keeps the balance with prepayment at or below the
    balance without. *)
Lemma body_dominated (s1 s0 : locals) :
  month s1 = month s0 -> balance s1 <= balance s0 ->
  balance (body_with s1) <= balance (body_without s0).
Proof.
  intros Hm Hb.
  pose proof (prepaid_nonneg yearly_prepay prepay_start_year (month s1)) as Hpp.
  destruct (balance_body_cases yearly_prepay prepay_start_year s1)
    as [ [H1 ->] | [H1 ->] ];
    destruct (balance_body_cases 0 1 s0) as [ [H0 ->] | [H0 ->] ];
    rewrite prepaid_none in *;
    set (d := prepaid yearly_prepay prepay_start_year (month s1)) in *;
    clearbody d; qc2q; nra.
Qed.

(** The loop only adds rows, each with a non-negative interest. *)
Lemma while_loop_grows (pp : Qc) (st : Z) (s : locals) :
  let f := fst (while_loop monthly_rate emi years pp st s) in
  total Interest (schedule s) <= total Interest (schedule f) /\
  (length (schedule s) <= length (schedule f))%nat.
Proof.
  cbv zeta.
  apply (while_loop_inv monthly_rate emi years pp st
           (fun f => total Interest (schedule s) <= total Interest (schedule f) /\
                     (length (schedule s) <= length (schedule f))%nat)).
  - intros f [Ht Hl] Hgt. apply gtb_true in Hgt.
    rewrite body_eq. cbn [schedule]. rewrite total_snoc, length_app.
    cbn [Interest row length]. split; [ | lia ].
    set (t0 := total Interest (schedule s)) in *.
    set (t1 := total Interest (schedule f)) in *.
    clearbody t0 t1. qc2q. nra.
  - split; [ apply Qcle_refl | lia ].
Qed.

Lemma test_dominated (s1 s0 : locals) :
  balance s1 <= balance s0 ->
  Py.gtb (balance s1) 1 = true -> Py.gtb (balance s0) 1 = true.
Proof.
  intros Hb Hgt. apply gtb_true in Hgt. apply gtb_true.
  eapply Qclt_le_trans; eassumption.
Qed.

Lemma rows_body_dominated (s1 s0 : locals) :
  balance s1 <= balance s0 ->
  total Interest (schedule s1) <= total Interest (schedule s0) ->
  (length (schedule s1) <= length (schedule s0))%nat ->
  total Interest (schedule (body_with s1))
    <= total Interest (schedule (body_without s0)) /\
  (length (schedule (body_with s1))
    <= length (schedule (body_without s0)))%nat.
Proof.
  intros Hb Ht Hl.
  rewrite !body_eq. cbn [schedule]. rewrite !total_snoc, !length_app.
  cbn [Interest row length]. split; [ | lia ].
  set (t1 := total Interest (schedule s1)) in *.
  set (t0 := total Interest (schedule s0)) in *.
  clearbody t1 t0. qc2q. nra.
Qed.

(** From dominated loop variables, the loop with prepayment ends
    with at most the total interest and at most the number of rows
    of the loop without. *)
Lemma loop_dominated (s1 : locals) :
  forall s0,
    month s1 = month s0 -> balance s1 <= balance s0 ->
    total Interest (schedule s1) <= total Interest (schedule s0) ->
    (length (schedule s1) <= length (schedule s0))%nat ->
    total Interest (schedule (fst (loop_with s1)))
      <= total Interest (schedule (fst (loop_without s0))) /\
    (length (schedule (fst (loop_with s1)))
      <= length (schedule (fst (loop_without s0))))%nat.
Proof.
  funelim (loop_with s1); intros s0 Hm Hb Ht Hl.
  - cbn [fst].
    destruct (while_loop_grows 0 1 s0) as [Ht' Hl'].
    split; [ | lia ].
    eapply Qcle_trans; eassumption.
  - rewrite (while_loop_eq monthly_rate emi years 0 1 s0).
    rewrite (test_dominated _ _ Hb Hcond).
    assert (Hc : (month (body_without s0) >? years * 12 * 3)%Z = true).
    { pose proof Hcap as Hc. rewrite body_eq in Hc |- *.
      cbn [month] in Hc |- *. rewrite <- Hm. exact Hc. }
    rewrite Hc. cbn [fst].
    apply rows_body_dominated; assumption.
  - rewrite (while_loop_eq monthly_rate emi years 0 1 s0).
    rewrite (test_dominated _ _ Hb Hcond).
    assert (Hc : (month (body_without s0) >? years * 12 * 3)%Z = false).
    { pose proof Hcap as Hc. rewrite body_eq in Hc |- *.
      cbn [month] in Hc |- *. rewrite <- Hm. exact Hc. }
    rewrite Hc.
    destruct (rows_body_dominated s s0 Hb Ht Hl) as [Ht' Hl'].
    match goal with
    | IH : forall s0 : locals, _ |- _ => apply IH; try assumption
    end.
    + rewrite !body_eq. cbn [month]. lia.
    + apply body_dominated; assumption.
Qed.

End Prepayment.

(** ** generate_schedule *)

Lemma generate_schedule_eq (principal annual_rate : Qc) (years : Z)
    (yearly_prepay : Qc) (prepay_start_year : Z) :
  generate_schedule principal annual_rate years yearly_prepay prepay_start_year =
  match calculate_emi principal annual_rate years with
  | Some emi =>
      Some (schedule (fst (while_loop (monthly annual_rate) emi years
                             yearly_prepay prepay_start_year (init principal))))
  | None => None
  end.
Proof.
  unfold generate_schedule, run_schedule. cbv zeta.
  destruct (calculate_emi principal annual_rate years); reflexivity.
Qed.

(** For a non-negative rate and at least one year, [calculate_emi]
    does not raise. *)
Lemma calculate_emi_returns (principal annual_rate : Qc) (years : Z) :
  0 <= annual_rate -> (1 <= years)%Z ->
  exists emi, calculate_emi principal annual_rate years = Some emi.
Proof.
  intros Hr Hy.
  destruct (Qc_eq_dec annual_rate 0) as [ -> | Hne ].
  - eexists. apply calculate_emi_rate_0. lia.
  - eexists. apply calculate_emi_rate_pos; [ | assumption ].
    apply Qcle_lt_or_eq in Hr. destruct Hr as [ Hr | Hr ];
      [ exact Hr | congruence ].
Qed.

(** C7.  For a positive principal and a tenure of at least one year,
    [calculate_emi] at rate 0 returns exactly the principal divided by
    twelve times the tenure. *)
Theorem calculate_emi_zero_rate (principal : Qc) (years : Z) :
  0 < principal -> (1 <= years)%Z ->
  calculate_emi principal 0 years = Some (principal / Py.num (years * 12)).
Proof.
  intros _ Hy. apply calculate_emi_rate_0. lia.
Qed.

Lemma calculate_emi_zero_rate_witness :
  0 < Py.num 1000000 /\ (1 <= 10)%Z /\
  calculate_emi (Py.num 1000000) 0 10 = Some (Py.num 1000000 / Py.num (10 * 12)).
Proof.
  split; [ reflexivity | ]. split; [ lia | ].
  apply (calculate_emi_zero_rate (Py.num 1000000) 10); [ reflexivity | lia ].
Defined.



















(** ** Concrete schedules *)

(** Scenario 2 of the specification: 1,000,000 at rate 0 over 10 years
    gives 120 rows without interest and clears the balance. *)
Example zero_rate_schedule :
  let rows := rows_of (generate_schedule (Py.num 1000000) 0 10 0 1) in
  length rows = 120%nat /\
  forallb (fun e => Py.eq0 (Interest e)) rows = true /\
  option_map (fun e => this (Balance e)) (last_row rows) = Some 0%Q.
Proof. vm_compute. repeat split; reflexivity. Qed.

(** 1200 at 12 percent over one year: twelve rows, and the last
    payment clears the balance exactly. *)
Example one_year_schedule :
  let rows := rows_of (generate_schedule (Py.num 1200) (Py.num 12) 1 0 1) in
  length rows = 12%nat /\
  option_map (fun e => this (Balance e)) (last_row rows) = Some 0%Q.
Proof. vm_compute. repeat split; reflexivity. Qed.

(** A yearly prepayment of 10000 shortens the 24 rows of a loan of
    24000 at rate 0 over two years to 14. *)
Example prepayment_schedule :
  length (rows_of (generate_schedule (Py.num 24000) 0 2 0 1)) = 24%nat /\
  length (rows_of (generate_schedule (Py.num 24000) 0 2 (Py.num 10000) 1))
  = 14%nat.
Proof. vm_compute. split; reflexivity. Qed.

(** * Further properties of the engine *)

(** ** calculate_emi *)

(** A tenure of zero years makes [calculate_emi] raise
    ZeroDivisionError for every principal and every rate (in the
    zero-rate branch by the division by [years * 12], in the other
    because [(1 + r) ** 0 - 1] is zero), and with it
    [generate_schedule], which calls it before its loop. *)
Theorem tenure_zero_raises (principal annual_rate yearly_prepay : Qc)
    (prepay_start_year : Z) :
  calculate_emi principal annual_rate 0 = None /\
  generate_schedule principal annual_rate 0 yearly_prepay prepay_start_year
  = None.
Proof.
  assert (H : calculate_emi principal annual_rate 0 = None).
  { unfold calculate_emi.
    destruct (Py.eq0 annual_rate); [ reflexivity | ].
    change (0 * 12)%Z with 0%Z. unfold Py.pow.
    change (0 <? 0)%Z with false. rewrite andb_false_r.
    cbn [Py.bind Qpower]. change (Q2Qc 1) with 1.
    unfold Py.div.
    assert (E : Py.eq0 (1 - 1) = true) by reflexivity.
    rewrite E. reflexivity. }
  split; [ exact H | ].
  rewrite generate_schedule_eq, H. reflexivity.
Qed.


(** ** The loop, continued *)

Section LoopAgreement.

Variables (monthly_rate emi : Qc) (years : Z).

(** Two loops that differ in their prepayment parameters return the
    same result from variables [s], provided a property [I] that holds
    of [s] is kept by the passes of the first loop and makes the two
    bodies agree. *)
Lemma while_loop_agree (pp1 pp2 : Qc) (st1 st2 : Z) (I : locals -> Prop) :
  (forall s, I s -> Py.gtb (balance s) 1 = true ->
             body monthly_rate emi pp1 st1 s = body monthly_rate emi pp2 st2 s) ->
  (forall s, I s -> Py.gtb (balance s) 1 = true ->
             I (body monthly_rate emi pp1 st1 s)) ->
  forall s, I s ->
    while_loop monthly_rate emi years pp1 st1 s =
    while_loop monthly_rate emi years pp2 st2 s.
Proof.
  intros Hsame Hkeep s.
  funelim (while_loop monthly_rate emi years pp1 st1 s); intro HI;
    rewrite (while_loop_eq monthly_rate emi years pp2 st2 s), Hcond.
  - reflexivity.
  - rewrite <- (Hsame s HI Hcond), Hcap. reflexivity.
  - rewrite <- (Hsame s HI Hcond), Hcap.
    match goal with
    | IH : forall pp0 : Qc, _ |- _ => apply (IH pp2 st2 I); try assumption
    end.
    apply Hkeep; assumption.
Qed.

(** A prepayment that is not positive is never due. *)
Lemma prepay_due_nonpositive (pp : Qc) (st m : Z) :
  pp <= 0 -> prepay_due pp st m = false.
Proof.
  intro H. unfold prepay_due. cbv zeta.
  apply gtb_false in H. rewrite H. apply andb_false_r.
Qed.

(** The body reads the prepayment parameters only through the test
    of line 65. *)
Lemma body_not_due (pp1 pp2 : Qc) (st1 st2 : Z) (s : locals) :
  prepay_due pp1 st1 (month s) = false ->
  prepay_due pp2 st2 (month s) = false ->
  body monthly_rate emi pp1 st1 s = body monthly_rate emi pp2 st2 s.
Proof.
  intros H1 H2. unfold body. cbv zeta. rewrite H1, H2. reflexivity.
Qed.

(** The loop only appends rows. *)
Lemma while_loop_extends (pp : Qc) (st : Z) (s : locals) :
  exists rest,
    schedule (fst (while_loop monthly_rate emi years pp st s))
    = schedule s ++ rest.
Proof.
  apply (while_loop_inv monthly_rate emi years pp st
           (fun f => exists rest, schedule f = schedule s ++ rest)).
  - intros f [rest Hf] _. rewrite body_eq. cbn [schedule].
    rewrite Hf, <- app_assoc. eexists. reflexivity.
  - exists []. rewrite app_nil_r. reflexivity.
Qed.

(** Every row carries the installment the loop was started with. *)
Lemma rows_emi (pp : Qc) (st : Z) (principal : Qc) :
  Forall (fun e => EMI e = emi)
         (schedule (fst (while_loop monthly_rate emi years pp st
                           (init principal)))).
Proof.
  apply (while_loop_inv monthly_rate emi years pp st
           (fun f => Forall (fun e => EMI e = emi) (schedule f))).
  - intros f Hf _. rewrite body_eq. cbn [schedule].
    apply Forall_app. split; [ exact Hf | ].
    constructor; [ reflexivity | constructor ].
  - constructor.
Qed.

End LoopAgreement.

(** ** generate_schedule, continued *)

(** The installment is computed once: every row of a returned table
    shows the value of [calculate_emi] for the original principal,
    also after prepayments have reduced the balance. *)
Theorem emi_column_constant
    (principal annual_rate : Qc) (years : Z)
    (yearly_prepay : Qc) (prepay_start_year : Z)
    (rows : list entry) :
  generate_schedule principal annual_rate years yearly_prepay prepay_start_year
  = Some rows ->
  exists emi,
    calculate_emi principal annual_rate years = Some emi /\
    Forall (fun e => EMI e = emi) rows.
Proof.
  rewrite generate_schedule_eq.
  destruct (calculate_emi principal annual_rate years) as [ emi | ];
    [ | discriminate ].
  intro E. injection E as <-. exists emi. split; [ reflexivity | ].
  apply rows_emi.
Qed.

Lemma emi_column_constant_witness :
  exists emi,
    calculate_emi (Py.num 24000) 0 2 = Some emi /\
    Forall (fun e => EMI e = emi)
           (rows_of (generate_schedule (Py.num 24000) 0 2 (Py.num 10000) 1)).
Proof.
  apply (emi_column_constant (Py.num 24000) 0 2 (Py.num 10000) 1).
  vm_compute. reflexivity.
Defined.

(** A yearly prepayment that is zero or negative is ignored: the table
    is the one of the call without prepayment, whatever the start
    year. *)
Theorem nonpositive_prepayment_ignored
    (principal annual_rate : Qc) (years : Z)
    (yearly_prepay : Qc) (prepay_start_year : Z) :
  yearly_prepay <= 0 ->
  generate_schedule principal annual_rate years yearly_prepay prepay_start_year
  = generate_schedule principal annual_rate years 0 1.
Proof.
  intro Hpp. rewrite !generate_schedule_eq.
  destruct (calculate_emi principal annual_rate years) as [ emi | ];
    [ | reflexivity ].
  do 3 f_equal.
  apply (while_loop_agree _ _ _ _ _ _ _ (fun _ => True)); auto.
  intros s _ _. apply body_not_due.
  - apply prepay_due_nonpositive. exact Hpp.
  - apply prepay_due_nonpositive. apply Qcle_refl.
Qed.

Lemma nonpositive_prepayment_ignored_witness :
  generate_schedule (Py.num 24000) (Py.num 12) 2 (- Py.num 500) 1
  = generate_schedule (Py.num 24000) (Py.num 12) 2 0 1.
Proof.
  apply (nonpositive_prepayment_ignored (Py.num 24000) (Py.num 12) 2
           (- Py.num 500) 1).
  vm_compute. discriminate.
Defined.

(** ** Valid loans: no truncation, closed form, full tenure *)

Section ValidLoan.

Variables (monthly_rate emi : Qc) (years : Z) (principal : Qc)
          (bound : Z -> Qc) (n : Z).

Hypothesis rate_nonneg : 0 <= monthly_rate.
Hypothesis emi_gt_interest : principal * monthly_rate < emi.
Hypothesis principal_nonneg : 0 <= principal.
Hypothesis n_within_cap : (1 <= n < years * 12 * 3)%Z.
Hypothesis bound_0 : bound 0%Z = principal.
Hypothesis bound_step :
  forall k, (0 <= k)%Z ->
    bound (k + 1)%Z = bound k * (1 + monthly_rate) - emi.
Hypothesis bound_nonneg :
  forall k, (0 <= k <= n)%Z -> 0 <= bound k.
Hypothesis bound_pos :
  forall k, (0 <= k)%Z -> 0 < bound k -> (k < n)%Z.

(** With any prepayment the loop is left by its test after at most
    [n] rows, with a balance between 0 and 1. *)
Lemma loop_not_truncated (pp : Qc) (st : Z) :
  let r := while_loop monthly_rate emi years pp st (init principal) in
  snd r = CondFalse /\
  (Z.of_nat (length (schedule (fst r))) <= n)%Z /\
  0 <= balance (fst r) /\ balance (fst r) <= 1.
Proof.
  cbv zeta.
  destruct (while_loop_converges monthly_rate emi years pp st principal
              rate_nonneg emi_gt_interest bound n n_within_cap bound_0
              bound_step bound_nonneg bound_pos principal_nonneg)
    as [Hexit Hmonth].
  pose proof (month_counts_rows monthly_rate emi years pp st principal) as Hrows.
  cbv zeta in Hrows.
  split; [ exact Hexit | ]. split; [ lia | ]. split.
  - apply (while_loop_inv monthly_rate emi years pp st (in_range principal)).
    + apply in_range_body; assumption.
    + apply in_range_init. exact principal_nonneg.
  - apply cond_false_balance. exact Hexit.
Qed.

(** A prepayment that is not due in any of the first [n] months
    leaves the loop as it is without prepayment. *)
Lemma loop_without_due_month (pp : Qc) (st : Z) :
  (forall m, (1 <= m <= n)%Z -> prepay_due pp st m = false) ->
  while_loop monthly_rate emi years pp st (init principal) =
  while_loop monthly_rate emi years 0 1 (init principal).
Proof.
  intro Hdue.
  apply (while_loop_agree monthly_rate emi years pp 0 st 1
           (below_bound bound n)).
  - intros s Hs Hgt.
    pose proof (below_bound_month monthly_rate emi principal rate_nonneg
                  emi_gt_interest bound n bound_0 bound_pos s Hs Hgt) as Hm.
    destruct Hs as (Hm1 & _).
    apply body_not_due.
    + apply Hdue. lia.
    + apply prepay_due_nonpositive. apply Qcle_refl.
  - intros s Hs Hgt.
    apply (below_bound_body monthly_rate emi pp st principal); assumption.
  - split; [ cbn; lia | split ].
    + exact principal_nonneg.
    + cbn [init month balance]. change (1 - 1)%Z with 0%Z.
      rewrite bound_0. apply Qcle_refl.
Qed.

(** *** Without prepayment *)

Lemma on_bound_body (pp : Qc) (st : Z) (s : locals) :
  pp <= 0 -> on_bound bound n s -> Py.gtb (balance s) 1 = true ->
  on_bound bound n (body monthly_rate emi pp st s).
Proof.
  intros Hpp (Hm & Hb & Hlen & Hrows) Hgt. apply gtb_true in Hgt.
  assert (Hk : (month s - 1 < n)%Z).
  { apply bound_pos; [ lia | ]. rewrite <- Hb.
    clear - Hgt. qc2q. lra. }
  pose proof (bound_nonneg (month s - 1 + 1)%Z ltac:(lia)) as Hnext.
  rewrite bound_step in Hnext by lia.
  assert (Hpre : prepaid pp st (month s) = 0).
  { unfold prepaid. rewrite prepay_due_nonpositive by exact Hpp. reflexivity. }
  assert (Hbal : balance (body monthly_rate emi pp st s)
                 = bound (month s - 1)%Z * (1 + monthly_rate) - emi).
  { destruct (balance_body_cases monthly_rate emi rate_nonneg pp st s)
      as [ [Hlt _] | [_ ->] ]; rewrite Hpre, Hb in *.
    - exfalso. clear - Hlt Hnext.
      set (u := bound (month s - 1)%Z) in *. clearbody u. qc2q. lra.
    - ring. }
  split; [ | split; [ | split ] ].
  - rewrite body_eq. cbn [month]. lia.
  - rewrite Hbal, body_eq. cbn [month].
    replace (month s + 1 - 1)%Z with (month s - 1 + 1)%Z by lia.
    rewrite bound_step by lia. reflexivity.
  - rewrite body_eq. cbn [month schedule]. rewrite length_app. cbn [length]. lia.
  - intros i e. rewrite body_eq at 1. cbn [schedule]. intro Hn.
    apply nth_error_snoc in Hn. destruct Hn as [ Hn | [-> ->] ].
    + exact (Hrows i e Hn).
    + split.
      * rewrite row_balance, Hbal.
        replace (Z.of_nat (S (length (schedule s)))) with (month s - 1 + 1)%Z
          by lia.
        rewrite bound_step by lia. reflexivity.
      * rewrite body_eq in Hbal. cbn [balance] in Hbal.
        cbn [Principal Interest EMI row].
        rewrite Hb in *.
        set (p := paid monthly_rate emi pp st s) in *. clearbody p.
        set (u := bound (month s - 1)%Z) in *. clearbody u.
        clear - Hbal.
        assert (E : p = emi - u * monthly_rate).
        { qc2q. lra. }
        rewrite E. ring.
Qed.

Lemma on_bound_init : on_bound bound n (init principal).
Proof.
  split; [ cbn; lia | split; [ | split ] ].
  - cbn [init month balance]. change (1 - 1)%Z with 0%Z.
    symmetry. exact bound_0.
  - reflexivity.
  - intros [ | i ] e; cbn; discriminate.
Qed.

Lemma loop_on_bound (pp : Qc) (st : Z) :
  pp <= 0 ->
  on_bound bound n (fst (while_loop monthly_rate emi years pp st (init principal))).
Proof.
  intro Hpp. apply while_loop_inv.
  - intros s Hs Hgt. apply on_bound_body; assumption.
  - exact on_bound_init.
Qed.

(** *** The full tenure *)

Lemma bound_le_principal (j : nat) :
  (Z.of_nat j <= n)%Z -> bound (Z.of_nat j) <= principal.
Proof.
  induction j as [ | j IH ]; intro Hj.
  - change (Z.of_nat 0) with 0%Z. rewrite bound_0. apply Qcle_refl.
  - replace (Z.of_nat (S j)) with (Z.of_nat j + 1)%Z by lia.
    rewrite bound_step by lia.
    specialize (IH ltac:(lia)).
    pose proof (bound_nonneg (Z.of_nat j) ltac:(lia)) as H0.
    set (u := bound (Z.of_nat j)) in *. clearbody u.
    clear - IH H0 rate_nonneg emi_gt_interest. qc2q. nra.
Qed.

Lemma bound_decreasing (k : Z) :
  (0 <= k < n)%Z -> bound (k + 1)%Z <= bound k.
Proof.
  intro Hk. rewrite bound_step by lia.
  pose proof (bound_le_principal (Z.to_nat k)) as HP.
  rewrite Z2Nat.id in HP by lia. specialize (HP ltac:(lia)).
  pose proof (bound_nonneg k ltac:(lia)) as H0.
  set (u := bound k) in *. clearbody u.
  clear - HP H0 rate_nonneg emi_gt_interest. qc2q. nra.
Qed.

Lemma bound_antitone (j : nat) (k : Z) :
  (0 <= k)%Z -> (k + Z.of_nat j <= n)%Z -> bound (k + Z.of_nat j)%Z <= bound k.
Proof.
  induction j as [ | j IH ]; intros Hk Hj.
  - rewrite Z.add_0_r. apply Qcle_refl.
  - replace (k + Z.of_nat (S j))%Z with (k + Z.of_nat j + 1)%Z by lia.
    eapply Qcle_trans; [ apply bound_decreasing; lia | apply IH; lia ].
Qed.

Lemma bound_n : bound n = 0.
Proof.
  apply Qcle_antisym; [ | apply bound_nonneg; lia ].
  destruct (Qclt_le_dec 0 (bound n)) as [ H | H ]; [ | exact H ].
  apply bound_pos in H; lia.
Qed.

(** When the installment exceeds [1 + monthly_rate], the balance
    before the last payment is still above the threshold. *)
Lemma bound_before_last : 1 + monthly_rate < emi -> 1 < bound (n - 1)%Z.
Proof.
  intro He.
  pose proof bound_n as Hn.
  replace n with (n - 1 + 1)%Z in Hn at 1 by lia.
  rewrite bound_step in Hn by lia.
  set (u := bound (n - 1)%Z) in *. clearbody u.
  clear - Hn He rate_nonneg.
  qc2q.
  destruct (Qlt_le_dec 1 (this u)) as [ H | H ]; [ exact H | exfalso; nra ].
Qed.

(** Without prepayment and with an installment above
    [1 + monthly_rate], the loop makes exactly [n] passes and ends
    with a zero balance. *)
Lemma loop_full_tenure (pp : Qc) (st : Z) :
  pp <= 0 -> 1 + monthly_rate < emi ->
  let f := fst (while_loop monthly_rate emi years pp st (init principal)) in
  Z.of_nat (length (schedule f)) = n /\ balance f = 0.
Proof.
  intros Hpp He. cbv zeta.
  destruct (loop_not_truncated pp st) as (_ & Hlen & _ & Hle1).
  destruct (loop_on_bound pp st Hpp) as (_ & Hb & Hm & _).
  set (f := fst (while_loop monthly_rate emi years pp st (init principal))) in *.
  replace (month f - 1)%Z with (Z.of_nat (length (schedule f))) in Hb by lia.
  assert (HL : Z.of_nat (length (schedule f)) = n).
  { destruct (Z.eq_dec (Z.of_nat (length (schedule f))) n) as [ E | NE ];
      [ exact E | exfalso ].
    pose proof (bound_before_last He) as Hlast.
    pose proof (bound_antitone
                  (Z.to_nat (n - 1 - Z.of_nat (length (schedule f))))
                  (Z.of_nat (length (schedule f)))
                  ltac:(lia) ltac:(lia)) as Hanti.
    replace (Z.of_nat (length (schedule f))
             + Z.of_nat (Z.to_nat (n - 1 - Z.of_nat (length (schedule f)))))%Z
      with (n - 1)%Z in Hanti by lia.
    rewrite <- Hb in Hanti.
    set (u := bound (n - 1)%Z) in *. set (b := balance f) in *.
    clearbody u b. clear - Hlast Hanti Hle1. qc2q. lra. }
  split; [ exact HL | ].
  rewrite Hb, HL. exact bound_n.
Qed.

End ValidLoan.









(** ** The first row *)

(** When the principal exceeds 1, the loop makes at least one pass:
    the table starts with the row of that pass. *)
Lemma loop_first_row (monthly_rate emi : Qc) (years : Z) (pp : Qc) (st : Z)
    (principal : Qc) :
  1 < principal ->
  exists rest,
    schedule (fst (while_loop monthly_rate emi years pp st (init principal)))
    = row monthly_rate emi pp st (init principal) :: rest.
Proof.
  intro HP. apply gtb_true in HP.
  rewrite while_loop_eq.
  change (balance (init principal)) with principal. rewrite HP.
  destruct (month (body monthly_rate emi pp st (init principal))
            >? years * 12 * 3)%Z.
  - exists []. reflexivity.
  - destruct (while_loop_extends monthly_rate emi years pp st
                (body monthly_rate emi pp st (init principal))) as [rest Hrest].
    exists rest. rewrite Hrest. reflexivity.
Qed.



(** ** A zero rate *)

Lemma rows_without_interest (emi : Qc) (years : Z) (pp : Qc) (st : Z)
    (principal : Qc) :
  Forall (fun e => Interest e = 0)
         (schedule (fst (while_loop 0 emi years pp st (init principal)))).
Proof.
  apply (while_loop_inv 0 emi years pp st
           (fun f => Forall (fun e => Interest e = 0) (schedule f))).
  - intros f Hf _. rewrite body_eq. cbn [schedule].
    apply Forall_app. split; [ exact Hf | ].
    constructor; [ | constructor ].
    cbn [Interest row]. ring.
  - constructor.
Qed.

(** At rate 0 no row charges interest, with or without prepayment. *)
Theorem zero_rate_no_interest
    (principal : Qc) (years : Z) (yearly_prepay : Qc) (prepay_start_year : Z)
    (rows : list entry) :
  generate_schedule principal 0 years yearly_prepay prepay_start_year
  = Some rows ->
  Forall (fun e => Interest e = 0) rows.
Proof.
  rewrite generate_schedule_eq.
  destruct (calculate_emi principal 0 years) as [ emi | ]; [ | discriminate ].
  intro E. injection E as <-. rewrite monthly_0.
  apply rows_without_interest.
Qed.

Lemma zero_rate_no_interest_witness :
  Forall (fun e => Interest e = 0)
         (rows_of (generate_schedule (Py.num 24000) 0 2 (Py.num 10000) 1)).
Proof.
  apply (zero_rate_no_interest (Py.num 24000) 2 (Py.num 10000) 1).
  vm_compute. reflexivity.
Defined.

(** * The dashboard *)

(** ** Columns and sums *)

Lemma Df_sum_from (f : entry -> Qc) (rows : list entry) (a : Qc) :
  fold_left Qcplus (map f rows) a = fold_left (fun acc e => acc + f e) rows a.
Proof.
  revert a. induction rows as [ | e rows IH ]; intro a; [ reflexivity | ].
  cbn [map fold_left]. apply IH.
Qed.

Lemma Df_sum_total (f : entry -> Qc) (rows : list entry) :
  Df.sum (map f rows) = total f rows.
Proof. apply Df_sum_from. Qed.

Lemma Df_column_some {A : Type} (name : entry -> A) (e : entry)
    (rows : list entry) :
  Df.column name (e :: rows) = Some (map name (e :: rows)).
Proof. reflexivity. Qed.

Lemma num_succ (z : Z) : Py.num (z + 1) = Py.num z + 1.
Proof.
  apply Qc_is_canon. rewrite num_Q. cbn [this Qcplus Q2Qc].
  rewrite Qred_correct, num_Q, inject_Z_plus. reflexivity.
Qed.

(** Rows that each add up to [c] add up to [c] times their number. *)
Lemma total_split (c : Qc) (rows : list entry) :
  (forall i e, nth_error rows i = Some e -> Principal e + Interest e = c) ->
  total Principal rows + total Interest rows = c * Py.num (Df.len rows).
Proof.
  induction rows as [ | x rows IH ] using rev_ind; intro H.
  - unfold total, Df.len. cbn [fold_left length Z.of_nat].
    change (Py.num 0) with 0. ring.
  - rewrite !total_snoc. unfold Df.len in *. rewrite length_app. cbn [length].
    replace (Z.of_nat (length rows + 1)) with (Z.of_nat (length rows) + 1)%Z
      by lia.
    rewrite num_succ.
    assert (Hx : Principal x + Interest x = c).
    { apply (H (length rows)). rewrite nth_error_app2 by lia.
      rewrite Nat.sub_diag. reflexivity. }
    assert (IH' : total Principal rows + total Interest rows
                  = c * Py.num (Z.of_nat (length rows))).
    { apply IH. intros i e Hi. apply (H i).
      rewrite nth_error_app1; [ exact Hi | ].
      apply nth_error_Some. congruence. }
    rewrite <- Hx.
    replace (total Principal rows + Principal x + (total Interest rows + Interest x))
      with (total Principal rows + total Interest rows
            + (Principal x + Interest x)) by ring.
    rewrite IH', Hx. ring.
Qed.

(** ** Tab 1: the comparison table *)

(** With a principal of at most 1 the loop makes no pass. *)
Lemma loop_small_principal (monthly_rate emi : Qc) (years : Z) (pp : Qc)
    (st : Z) (principal : Qc) :
  principal <= 1 ->
  schedule (fst (while_loop monthly_rate emi years pp st (init principal))) = [].
Proof.
  intro HP. apply gtb_false in HP.
  rewrite while_loop_eq.
  change (balance (init principal)) with principal. rewrite HP. reflexivity.
Qed.





(** ** Tab 2: the benefit of prepaying *)



(** ** The prepayments that fell due *)

Lemma prepay_due_true (pp : Qc) (st m : Z) :
  0 < pp ->
  prepay_due pp st m = true <->
  (m mod 12 = 0 /\ st <= (m - 1) / 12 + 1)%Z.
Proof.
  intro Hpp. unfold prepay_due. cbv zeta.
  apply gtb_true in Hpp. rewrite Hpp, andb_true_r, andb_true_iff.
  rewrite Z.eqb_eq, Z.geb_leb, Z.leb_le. reflexivity.
Qed.

(** In a table whose rows are numbered from 1, a positive prepayment
    fell due once in every completed year from the start year on. *)
Lemma due_count (pp : Qc) (st : Z) (rows : list entry) :
  0 < pp ->
  (forall i e, nth_error rows i = Some e -> Month e = Z.of_nat (S i)) ->
  prepayments_due pp st rows
  = Z.max 0 (Df.len rows / 12 - Z.max 0 (st - 1)).
Proof.
  intros Hpp. unfold prepayments_due, Df.len.
  induction rows as [ | x rows IH ] using rev_ind; intro Hm.
  - cbn. rewrite Z.max_l; lia.
  - assert (IH' : Z.of_nat (length (filter (fun e => prepay_due pp st (Month e))
                                      rows))
                  = Z.max 0 (Z.of_nat (length rows) / 12 - Z.max 0 (st - 1))).
    { apply IH. intros i e Hi. apply (Hm i).
      rewrite nth_error_app1; [ exact Hi | ].
      apply nth_error_Some. congruence. }
    assert (Hx : Month x = (Z.of_nat (length rows) + 1)%Z).
    { rewrite (Hm (length rows) x).
      - lia.
      - rewrite nth_error_app2 by lia. rewrite Nat.sub_diag. reflexivity. }
    rewrite filter_app, !length_app. cbn [filter length].
    destruct (prepay_due pp st (Month x)) eqn:E.
    + apply (prepay_due_true pp st _ Hpp) in E. rewrite Hx in E.
      replace (Z.of_nat (length rows) + 1 - 1)%Z
        with (Z.of_nat (length rows)) in E by lia.
      cbn [length].
      replace (Z.of_nat (length rows + 1)) with (Z.of_nat (length rows) + 1)%Z
        by lia.
      rewrite Nat2Z.inj_add, IH'. change (Z.of_nat 1) with 1%Z.
      set (L := Z.of_nat (length rows)) in *.
      assert (0 <= L)%Z by (unfold L; lia).
      clearbody L. clear - E H.
      destruct E as [E1 E2].
      Z.div_mod_to_equations. lia.
    + assert (E' : ~ ((Month x) mod 12 = 0
                      /\ st <= (Month x - 1) / 12 + 1)%Z).
      { intro H. apply (prepay_due_true pp st _ Hpp) in H. congruence. }
      rewrite Hx in E'.
      replace (Z.of_nat (length rows) + 1 - 1)%Z
        with (Z.of_nat (length rows)) in E' by lia.
      cbn [length]. rewrite Nat.add_0_r.
      replace (Z.of_nat (length rows + 1)) with (Z.of_nat (length rows) + 1)%Z
        by lia.
      rewrite IH'.
      set (L := Z.of_nat (length rows)) in *.
      assert (0 <= L)%Z by (unfold L; lia).
      clearbody L. clear - E' H.
      Z.div_mod_to_equations. lia.
Qed.

(** In a returned table, a positive yearly prepayment fell due in
    [max(0, len // 12 - max(0, start_year - 1))] rows: once in every
    completed year from the start year on.  The net benefit of tab 2
    deducts the prepayment [len // 12] times (line 142), which is this
    number when the start year is 1. *)
Theorem prepayments_due_count
    (principal annual_rate : Qc) (years : Z)
    (yearly_prepay : Qc) (prepay_start_year : Z) (rows : list entry) :
  0 < yearly_prepay ->
  generate_schedule principal annual_rate years yearly_prepay prepay_start_year
  = Some rows ->
  prepayments_due yearly_prepay prepay_start_year rows
  = Z.max 0 (Df.len rows / 12 - Z.max 0 (prepay_start_year - 1)).
Proof.
  intros Hpp. rewrite generate_schedule_eq.
  destruct (calculate_emi principal annual_rate years) as [ emi | ];
    [ | discriminate ].
  intro E. injection E as <-.
  apply due_count; [ exact Hpp | ].
  apply rows_month.
Qed.

Lemma prepayments_due_count_witness :
  prepayments_due (Py.num 1000) 2
    (rows_of (generate_schedule (Py.num 36000) 0 3 (Py.num 1000) 2))
  = Z.max 0 (Df.len (rows_of (generate_schedule (Py.num 36000) 0 3
                                (Py.num 1000) 2)) / 12
             - Z.max 0 (2 - 1)).
Proof.
  apply (prepayments_due_count (Py.num 36000) 0 3 (Py.num 1000) 2).
  - reflexivity.
  - vm_compute. reflexivity.
Defined.

(** ** Tab 4: the year-wise summary *)

Lemma Df_sum_shift (l : list Qc) (a : Qc) :
  fold_left Qcplus l a = a + fold_left Qcplus l 0.
Proof.
  revert a. induction l as [ | x l IH ]; intro a; cbn [fold_left].
  - ring.
  - rewrite (IH (a + x)), (IH (0 + x)). ring.
Qed.

Lemma Df_sum_cons (x : Qc) (l : list Qc) : Df.sum (x :: l) = x + Df.sum l.
Proof.
  unfold Df.sum. cbn [fold_left]. rewrite Df_sum_shift. ring.
Qed.

Lemma Df_sum_nil : Df.sum [] = 0.
Proof. reflexivity. Qed.

(** The sum of a series does not depend on the order of its values. *)
Lemma Df_sum_perm (l l' : list Qc) : Permutation l l' -> Df.sum l = Df.sum l'.
Proof.
  induction 1 as [ | x l l' _ IH | x y l | l l' l'' _ IH1 _ IH2 ].
  - reflexivity.
  - rewrite !Df_sum_cons, IH. reflexivity.
  - rewrite !Df_sum_cons. ring.
  - congruence.
Qed.

Lemma insert_key_perm (k : Z) (keys : list Z) :
  Permutation (insert_key k keys) (k :: keys).
Proof.
  induction keys as [ | k' keys IH ]; cbn [insert_key].
  - reflexivity.
  - destruct (k <=? k')%Z.
    + reflexivity.
    + rewrite IH. apply perm_swap.
Qed.

Lemma sort_keys_perm (keys : list Z) : Permutation (sort_keys keys) keys.
Proof.
  induction keys as [ | k keys IH ]; cbn [sort_keys fold_right].
  - reflexivity.
  - fold (sort_keys keys). rewrite insert_key_perm, IH. reflexivity.
Qed.

Lemma insert_key_sorted (k : Z) (keys : list Z) :
  StronglySorted Z.lt keys -> ~ In k keys ->
  StronglySorted Z.lt (insert_key k keys).
Proof.
  induction keys as [ | k' keys IH ]; intros Hs Hn; cbn [insert_key].
  - constructor; constructor.
  - inversion Hs as [ | ? ? Hs' Hall ]; subst.
    destruct (k <=? k')%Z eqn:E.
    + apply Z.leb_le in E.
      assert (k < k')%Z by (cbn in Hn; lia).
      constructor; [ exact Hs | ].
      constructor; [ assumption | ].
      eapply Forall_impl; [ | exact Hall ]. cbn. intros. lia.
    + apply Z.leb_gt in E.
      constructor.
      * apply IH; [ exact Hs' | ]. cbn in Hn. tauto.
      * rewrite Forall_forall. intros z Hz.
        apply (Permutation_in _ (insert_key_perm k keys)) in Hz.
        destruct Hz as [ <- | Hz ]; [ exact E | ].
        rewrite Forall_forall in Hall. apply Hall. exact Hz.
Qed.

(** The sorted keys come in strictly increasing order when they are
    distinct. *)
Lemma sort_keys_sorted (keys : list Z) :
  NoDup keys -> StronglySorted Z.lt (sort_keys keys).
Proof.
  induction keys as [ | k keys IH ]; intro Hnd; cbn [sort_keys fold_right].
  - constructor.
  - fold (sort_keys keys). inversion Hnd as [ | ? ? Hn Hnd' ]; subst.
    apply insert_key_sorted; [ apply IH; exact Hnd' | ].
    intro Hin. apply Hn.
    apply (Permutation_in _ (sort_keys_perm keys)). exact Hin.
Qed.

(** Among distinct keys exactly one is the key of a given row. *)
Lemma sum_one_key (c : Qc) (k : Z) (keys : list Z) :
  NoDup keys -> In k keys ->
  Df.sum (map (fun k' => if (k =? k')%Z then c else 0) keys) = c.
Proof.
  induction keys as [ | k' keys IH ]; intros Hnd Hin; [ destruct Hin | ].
  inversion Hnd as [ | ? ? Hn Hnd' ]; subst.
  cbn [map]. rewrite Df_sum_cons.
  destruct (k =? k')%Z eqn:E.
  - apply Z.eqb_eq in E. subst k'.
    assert (Hz : Df.sum (map (fun k' => if (k =? k')%Z then c else 0) keys) = 0).
    { clear - Hn. induction keys as [ | k' keys IH ]; [ reflexivity | ].
      cbn [map]. rewrite Df_sum_cons.
      destruct (k =? k')%Z eqn:E.
      - apply Z.eqb_eq in E. subst. exfalso. apply Hn. left. reflexivity.
      - rewrite IH; [ ring | ]. intro H. apply Hn. right. exact H. }
    rewrite Hz. ring.
  - apply Z.eqb_neq in E. destruct Hin as [ -> | Hin ]; [ congruence | ].
    rewrite (IH Hnd' Hin). ring.
Qed.

Lemma Df_sum_plus (f g : Z -> Qc) (keys : list Z) :
  Df.sum (map (fun k => f k + g k) keys)
  = Df.sum (map f keys) + Df.sum (map g keys).
Proof.
  induction keys as [ | k keys IH ]; cbn [map].
  - rewrite !Df_sum_nil. ring.
  - rewrite !Df_sum_cons, IH. ring.
Qed.

(** Summing a column group by group gives the sum of the column, when
    the keys are distinct and every row has its key among them. *)
Lemma groups_add_up (f : entry -> Qc) (keys : list Z) (rows : list entry) :
  NoDup keys ->
  (forall e, In e rows -> In (year_key e) keys) ->
  Df.sum (map (fun k => Df.sum (map f (year_group rows k))) keys)
  = Df.sum (map f rows).
Proof.
  intros Hnd. induction rows as [ | e rows IH ]; intro Hin.
  - change (Df.sum (map (fun _ : Z => 0) keys) = 0).
    clear Hnd Hin. induction keys as [ | k keys IHk ]; [ reflexivity | ].
    cbn [map]. rewrite Df_sum_cons, IHk. ring.
  - cbn [map]. rewrite Df_sum_cons.
    rewrite <- IH by (intros e' He'; apply Hin; right; exact He').
    transitivity
      (Df.sum (map (fun k => if (year_key e =? k)%Z then f e else 0) keys)
       + Df.sum (map (fun k => Df.sum (map f (year_group rows k))) keys)).
    + rewrite <- Df_sum_plus. f_equal.
      apply map_ext. intro k. unfold year_group. cbn [filter].
      destruct (year_key e =? k)%Z.
      * cbn [map]. apply Df_sum_cons.
      * ring.
    + rewrite (sum_one_key (f e) (year_key e) keys Hnd
                 (Hin e (or_introl eq_refl))).
      reflexivity.
Qed.

(** The keys of the year-wise summary. *)
Lemma summary_keys (rows : list entry) :
  let keys := sort_keys (nodup Z.eq_dec (map year_key rows)) in
  NoDup keys /\
  StronglySorted Z.lt keys /\
  forall k, In k keys <-> In k (map year_key rows).
Proof.
  cbv zeta.
  pose proof (NoDup_nodup Z.eq_dec (map year_key rows)) as Hnd.
  pose proof (sort_keys_perm (nodup Z.eq_dec (map year_key rows))) as Hp.
  split; [ | split ].
  - apply (Permutation_NoDup (Permutation_sym Hp)). exact Hnd.
  - apply sort_keys_sorted. exact Hnd.
  - intro k. split; intro H.
    + apply (Permutation_in _ Hp) in H. apply nodup_In in H. exact H.
    + apply (Permutation_in _ (Permutation_sym Hp)). apply nodup_In. exact H.
Qed.

Lemma yearly_summary_eq (e : entry) (rest : list entry) :
  yearly_summary (e :: rest) =
  Some (map (fun k =>
               let group := year_group (e :: rest) k in
               let principal := Df.sum (map Principal group) in
               let interest := Df.sum (map Interest group) in
               {| Year := (k + 1)%Z;
                  TotalPaid := principal + interest;
                  YearPrincipal := principal;
                  YearInterest := interest;
                  YearBalance := last (map Balance group) 0 |})
            (sort_keys (nodup Z.eq_dec (map year_key (e :: rest))))).
Proof.
  unfold yearly_summary. rewrite Df_column_some. cbn [Py.bind].
  rewrite map_map. reflexivity.
Qed.



(** Two strictly increasing lists with the same elements are equal. *)
Lemma sorted_lt_ext (l1 l2 : list Z) :
  StronglySorted Z.lt l1 -> StronglySorted Z.lt l2 ->
  (forall k, In k l1 <-> In k l2) -> l1 = l2.
Proof.
  revert l2. induction l1 as [ | a l1 IH ]; intros l2 H1 H2 Hin.
  - destruct l2 as [ | b l2 ]; [ reflexivity | ].
    exfalso. apply (Hin b). left. reflexivity.
  - destruct l2 as [ | b l2 ].
    { exfalso. apply (Hin a). left. reflexivity. }
    inversion H1 as [ | ? ? H1' Ha ]; subst.
    inversion H2 as [ | ? ? H2' Hb ]; subst.
    rewrite Forall_forall in Ha, Hb.
    assert (a = b).
    { destruct (proj1 (Hin a) (or_introl eq_refl)) as [ E | Hab ];
        [ congruence | ].
      destruct (proj2 (Hin b) (or_introl eq_refl)) as [ E | Hba ];
        [ congruence | ].
      specialize (Ha b Hba). specialize (Hb a Hab). lia. }
    subst b. f_equal. apply IH; try assumption.
    intro k. split; intro Hk.
    + destruct (proj1 (Hin k) (or_intror Hk)) as [ E | Hk' ]; [ | exact Hk' ].
      subst k. specialize (Ha a Hk). lia.
    + destruct (proj2 (Hin k) (or_intror Hk)) as [ E | Hk' ]; [ | exact Hk' ].
      subst k. specialize (Hb a Hk). lia.
Qed.

Lemma seq_sorted (s n : nat) : StronglySorted Z.lt (map Z.of_nat (seq s n)).
Proof.
  revert s. induction n as [ | n IH ]; intro s; cbn [seq map].
  - constructor.
  - constructor; [ apply IH | ].
    rewrite Forall_forall. intros z Hz.
    apply in_map_iff in Hz. destruct Hz as (i & <- & Hi).
    apply in_seq in Hi. lia.
Qed.

(** In a table whose rows are numbered from 1, the years of the rows
    are the numbers from 0 to [(len - 1) // 12]. *)
Lemma year_keys_of_rows (rows : list entry) :
  rows <> [] ->
  (forall i e, nth_error rows i = Some e -> Month e = Z.of_nat (S i)) ->
  forall k, In k (map year_key rows) <-> (0 <= k <= (Df.len rows - 1) / 12)%Z.
Proof.
  intros Hne Hm k. unfold Df.len.
  assert (HL : (1 <= Z.of_nat (length rows))%Z).
  { destruct rows; [ congruence | cbn [length]; lia ]. }
  split.
  - intro Hin. apply in_map_iff in Hin. destruct Hin as (e & <- & He).
    apply In_nth_error in He. destruct He as [i Hi].
    assert (Hlt : (i < length rows)%nat)
      by (apply nth_error_Some; congruence).
    unfold year_key. rewrite (Hm i e Hi).
    replace (Z.of_nat (S i) - 1)%Z with (Z.of_nat i) by lia.
    split; [ apply Z.div_pos; lia | apply Z.div_le_mono; lia ].
  - intros [H0 Hk].
    assert (Hi : (Z.to_nat (12 * k) < length rows)%nat).
    { assert (12 * k <= Z.of_nat (length rows) - 1)%Z; [ | lia ].
      revert Hk. Z.div_mod_to_equations. lia. }
    destruct (nth_error rows (Z.to_nat (12 * k))) as [ e | ] eqn:E.
    + apply in_map_iff. exists e. split; [ | eapply nth_error_In; exact E ].
      unfold year_key. rewrite (Hm _ e E).
      replace (Z.of_nat (S (Z.to_nat (12 * k))) - 1)%Z with (k * 12)%Z by lia.
      apply Z.div_mul. lia.
    + apply nth_error_None in E. lia.
Qed.

Lemma last_group_balance (rows : list entry) (x : entry) :
  last (map Balance (year_group (rows ++ [x]) (year_key x))) 0 = Balance x.
Proof.
  unfold year_group. rewrite filter_app. cbn [filter].
  rewrite Z.eqb_refl, map_app. cbn [map]. apply last_last.
Qed.

(** The year-wise summary of a returned table with at least one row:
    it has one row for every year the schedule reaches, numbered 1, 2,
    ... up to [ceil(len / 12)], and the balance shown for the last
    year is the balance of the last row of the schedule. *)
Theorem yearly_summary_of_schedule
    (principal annual_rate : Qc) (years : Z)
    (yearly_prepay : Qc) (prepay_start_year : Z) (rows : list entry) :
  generate_schedule principal annual_rate years yearly_prepay prepay_start_year
  = Some rows ->
  rows <> [] ->
  exists summary,
    yearly_summary rows = Some summary /\
    map Year summary
    = map Z.of_nat (seq 1 (Z.to_nat ((Df.len rows + 11) / 12))) /\
    exists y e,
      nth_error summary (pred (length summary)) = Some y /\
      last_row rows = Some e /\
      YearBalance y = Balance e.
Proof.
  rewrite generate_schedule_eq.
  destruct (calculate_emi principal annual_rate years) as [ emi | ];
    [ | discriminate ].
  intros E Hne. injection E as E.
  pose proof (rows_month (monthly annual_rate) emi years yearly_prepay
                prepay_start_year principal) as Hm.
  cbv zeta in Hm. rewrite E in Hm. clear E.
  destruct (summary_keys rows) as (Hnd & Hsorted & Hin).
  pose proof (year_keys_of_rows rows Hne Hm) as Hkeys.
  assert (HL : (1 <= Df.len rows)%Z).
  { unfold Df.len. destruct rows; [ congruence | cbn [length]; lia ]. }
  set (n := Z.to_nat ((Df.len rows + 11) / 12)).
  assert (Hn : Z.of_nat n = ((Df.len rows - 1) / 12 + 1)%Z).
  { unfold n. rewrite Z2Nat.id by (apply Z.div_pos; lia).
    Z.div_mod_to_equations. lia. }
  assert (Hn1 : (1 <= n)%nat).
  { assert (0 <= (Df.len rows - 1) / 12)%Z by (apply Z.div_pos; lia). lia. }
  clearbody n.
  assert (Hk : sort_keys (nodup Z.eq_dec (map year_key rows))
               = map Z.of_nat (seq 0 n)).
  { apply sorted_lt_ext; [ exact Hsorted | apply seq_sorted | ].
    intro k. rewrite Hin, Hkeys, in_map_iff. split.
    - intros [H0 H1]. exists (Z.to_nat k). split; [ lia | ].
      apply in_seq. lia.
    - intros (i & <- & Hi). apply in_seq in Hi. lia. }
  assert (Hsum : exists summary,
            yearly_summary rows = Some summary /\
            summary = map (fun k =>
                             let group := year_group rows k in
                             let principal := Df.sum (map Principal group) in
                             let interest := Df.sum (map Interest group) in
                             {| Year := (k + 1)%Z;
                                TotalPaid := principal + interest;
                                YearPrincipal := principal;
                                YearInterest := interest;
                                YearBalance := last (map Balance group) 0 |})
                          (map Z.of_nat (seq 0 n))).
  { rewrite <- Hk. destruct rows as [ | e0 rest ]; [ congruence | ].
    eexists. split; [ apply yearly_summary_eq | reflexivity ]. }
  destruct Hsum as (summary & Hsome & ->).
  eexists. split; [ exact Hsome | ]. split.
  - rewrite !map_map, <- seq_shift, map_map. apply map_ext.
    intro i. cbn [Year]. lia.
  - destruct (exists_last Hne) as (l & x & Hlx).
    assert (Hx : year_key x = Z.of_nat (pred n)).
    { unfold year_key. rewrite (Hm (length l) x).
      - replace (Z.of_nat (S (length l)) - 1)%Z with (Df.len rows - 1)%Z.
        + lia.
        + unfold Df.len. rewrite Hlx, length_app. cbn [length]. lia.
      - rewrite Hlx, nth_error_app2 by lia. rewrite Nat.sub_diag. reflexivity. }
    eexists. exists x. split; [ | split ].
    + rewrite length_map, length_map, length_seq.
      apply map_nth_error. apply map_nth_error.
      rewrite nth_error_nth' with (d := 0%nat) by (rewrite length_seq; lia).
      rewrite seq_nth by lia. reflexivity.
    + rewrite Hlx. apply last_row_snoc.
    + cbn [YearBalance Nat.add]. rewrite <- Hx, Hlx.
      apply last_group_balance.
Qed.

Lemma yearly_summary_of_schedule_witness :
  let rows := rows_of (generate_schedule (Py.num 24000) 0 2 (Py.num 10000) 1) in
  exists summary,
    yearly_summary rows = Some summary /\
    map Year summary
    = map Z.of_nat (seq 1 (Z.to_nat ((Df.len rows + 11) / 12))) /\
    exists y e,
      nth_error summary (pred (length summary)) = Some y /\
      last_row rows = Some e /\
      YearBalance y = Balance e.
Proof.
  apply (yearly_summary_of_schedule (Py.num 24000) 0 2 (Py.num 10000) 1).
  - vm_compute. reflexivity.
  - vm_compute. discriminate.
Defined.

(** ** The balance curves of tab 2 *)

Section BalanceCurves.

Variables (monthly_rate emi : Qc) (years : Z)
          (yearly_prepay : Qc) (prepay_start_year : Z).

Hypothesis rate_nonneg : 0 <= monthly_rate.

Lemma below_curve_snoc (l1 l0 : list entry) (x1 x0 : entry) :
  length l1 = length l0 ->
  below_curve l1 l0 -> Balance x1 <= Balance x0 ->
  below_curve (l1 ++ [x1]) (l0 ++ [x0]).
Proof.
  intros Hlen Hrows Hx i a b Ha Hb.
  apply nth_error_snoc in Ha. apply nth_error_snoc in Hb.
  destruct Ha as [ Ha | [Hi ->] ]; destruct Hb as [ Hb | [Hj ->] ].
  - exact (Hrows i a b Ha Hb).
  - exfalso. assert (i < length l1)%nat by (apply nth_error_Some; congruence).
    lia.
  - exfalso. assert (i < length l0)%nat by (apply nth_error_Some; congruence).
    lia.
  - exact Hx.
Qed.

(** From loop variables with the same month, the same number of rows
    and a balance with prepayment at or below the balance without,
    every month reached with prepayment shows a balance at or below
    the balance of the same month without. *)
Lemma loop_below_curve (s1 : locals) :
  forall s0,
    month s1 = month s0 -> balance s1 <= balance s0 ->
    length (schedule s1) = length (schedule s0) ->
    below_curve (schedule s1) (schedule s0) ->
    below_curve
      (schedule (fst (while_loop monthly_rate emi years yearly_prepay
                        prepay_start_year s1)))
      (schedule (fst (while_loop monthly_rate emi years 0 1 s0))).
Proof.
  funelim (while_loop monthly_rate emi years yearly_prepay prepay_start_year s1);
    intros s0 Hm Hb Hlen Hrows.
  - cbn [fst].
    destruct (while_loop_extends monthly_rate emi years 0 1 s0) as [rest Hrest].
    rewrite Hrest. intros i a b Ha Hb'.
    assert (Hi : (i < length (schedule s0))%nat).
    { rewrite <- Hlen. apply nth_error_Some. congruence. }
    rewrite nth_error_app1 in Hb' by exact Hi.
    exact (Hrows i a b Ha Hb').
  - rewrite (while_loop_eq monthly_rate emi years 0 1 s0).
    rewrite (test_dominated _ _ Hb Hcond).
    assert (Hc : (month (body monthly_rate emi 0 1 s0) >? years * 12 * 3)%Z
                 = true).
    { pose proof Hcap as Hc. rewrite body_eq in Hc |- *.
      cbn [month] in Hc |- *. rewrite <- Hm. exact Hc. }
    rewrite Hc. cbn [fst]. rewrite !body_eq. cbn [schedule].
    apply below_curve_snoc; try assumption.
    rewrite !row_balance. apply body_dominated; assumption.
  - rewrite (while_loop_eq monthly_rate emi years 0 1 s0).
    rewrite (test_dominated _ _ Hb Hcond).
    assert (Hc : (month (body monthly_rate emi 0 1 s0) >? years * 12 * 3)%Z
                 = false).
    { pose proof Hcap as Hc. rewrite body_eq in Hc |- *.
      cbn [month] in Hc |- *. rewrite <- Hm. exact Hc. }
    rewrite Hc.
    match goal with
    | IH : forall s0 : locals, _ |- _ => apply IH
    end.
    + rewrite !body_eq. cbn [month]. lia.
    + apply body_dominated; assumption.
    + rewrite !body_eq. cbn [schedule]. rewrite !length_app. cbn [length]. lia.
    + rewrite !body_eq. cbn [schedule].
      apply below_curve_snoc; try assumption.
      rewrite !row_balance. apply body_dominated; assumption.
Qed.

End BalanceCurves.



(** ** The interest column *)

Section InterestColumn.

Variables (monthly_rate emi : Qc) (years : Z)
          (yearly_prepay : Qc) (prepay_start_year : Z) (principal : Qc).

Hypothesis rate_nonneg : 0 <= monthly_rate.
Hypothesis emi_gt_interest : principal * monthly_rate < emi.

(** The interest charged never increases from a row to the next. *)
Lemma rows_interest_non_increasing :
  0 <= principal ->
  forall i a b,
    nth_error (schedule (fst (while_loop monthly_rate emi years yearly_prepay
                                prepay_start_year (init principal)))) i
    = Some a ->
    nth_error (schedule (fst (while_loop monthly_rate emi years yearly_prepay
                                prepay_start_year (init principal)))) (S i)
    = Some b ->
    Interest b <= Interest a.
Proof.
  intro HP.
  enough (H :
    (fun s =>
       (forall i a b, nth_error (schedule s) i = Some a ->
                      nth_error (schedule s) (S i) = Some b ->
                      Interest b <= Interest a) /\
       (forall e, last_row (schedule s) = Some e ->
                  balance s * monthly_rate <= Interest e) /\
       in_range principal s)
    (fst (while_loop monthly_rate emi years yearly_prepay prepay_start_year
            (init principal)))) by apply H.
  apply while_loop_inv.
  - intros s (Hrows & Hlast & Hr) Hgt.
    assert (Hstep : balance (body monthly_rate emi yearly_prepay
                               prepay_start_year s) * monthly_rate
                    <= balance s * monthly_rate).
    { rewrite body_eq. cbn [balance].
      apply gtb_true in Hgt. destruct Hr as [H0 HP'].
      pose proof (paid_pos monthly_rate emi yearly_prepay prepay_start_year
                    principal rate_nonneg emi_gt_interest s Hgt HP') as Hpos.
      set (p := paid monthly_rate emi yearly_prepay prepay_start_year s) in *.
      clearbody p. clear - Hpos rate_nonneg. qc2q. nra. }
    split; [ | split; [ | apply in_range_body; assumption ] ].
    + intros i a b. rewrite body_eq. cbn [schedule]. intros Ha Hb.
      apply nth_error_snoc in Hb. destruct Hb as [ Hb | [Hi ->] ].
      * assert (Hlt : (i < length (schedule s))%nat).
        { apply Nat.lt_succ_l. apply nth_error_Some. congruence. }
        rewrite nth_error_app1 in Ha by exact Hlt.
        exact (Hrows i a b Ha Hb).
      * rewrite nth_error_app1 in Ha by lia.
        cbn [Interest row].
        exact (Hlast a (last_row_nth _ _ _ Ha Hi)).
    + intros e. rewrite body_eq at 1. cbn [schedule].
      rewrite last_row_snoc. intro E. injection E as <-.
      cbn [Interest row]. exact Hstep.
  - split; [ | split; [ | apply in_range_init; exact HP ] ].
    + intros [ | i ] a b; cbn; discriminate.
    + intros e. cbn. discriminate.
Qed.

End InterestColumn.


